(** * Sentence-aware chunking and parent/child ingestion

    A shallow embedding of [text_splitters.sentence_aware_splitter] and of
    the [ParentChildIngester] class of [parent_child_ingester.py], with the
    properties of the chunk builder, the content-addressed parent store,
    the two-tier indexer and the retriever. *)

From Stdlib Require Import ZArith Ascii String List Lia.
From stdpp Require Import base list gmap strings.
From Equations Require Import Equations.

Local Open Scope Z_scope.

(** ** Python results

    A call either returns a value or raises.  The only exception the
    modelled code raises itself is [ValueError]. *)

Inductive exn : Type :=
| ValueError (msg : string).

Inductive result (A : Type) : Type :=
| Ok (a : A)
| Raise (e : exn).
Arguments Ok {A} a.
Arguments Raise {A} e.

(** [" ".join(l)] *)
Definition join (sep : string) (l : list string) : string := String.concat sep l.

(** ** Stand-in tokenizers

    [sent_tokenize] and [word_tokenize] come from NLTK and are parameters
    of the model.  The two functions below are simple executable
    instances used to run the model on concrete texts: a sentence ends at
    a full stop, a word ends at a space, and a full stop is a token of
    its own. *)

Module SimpleTokenizers.

Definition flush (acc : string) (k : list string) : list string :=
  if bool_decide (acc = ""%string) then k else acc :: k.

Fixpoint sentences_from (s acc : string) : list string :=
  match s with
  | EmptyString => flush acc []
  | String c s' =>
      if bool_decide (c = "."%char) then (acc +:+ ".")%string :: sentences_from s' ""%string
      else if bool_decide (c = " "%char) && bool_decide (acc = ""%string)
           then sentences_from s' ""%string
           else sentences_from s' (acc +:+ String c "")%string
  end.

Definition sent_tokenize (text : string) : list string := sentences_from text ""%string.

Fixpoint words_from (s acc : string) : list string :=
  match s with
  | EmptyString => flush acc []
  | String c s' =>
      if bool_decide (c = "."%char) then flush acc ("."%string :: words_from s' ""%string)
      else if bool_decide (c = " "%char) then flush acc (words_from s' ""%string)
           else words_from s' (acc +:+ String c "")%string
  end.

Definition word_tokenize (sentence : string) : list string := words_from sentence ""%string.

End SimpleTokenizers.

(** ** text_splitters.sentence_aware_splitter *)

Module Splitter.

(** What one iteration of the outer loop appends to [chunks], together
    with the locals of that iteration: the cursor it started from
    ([current_sentence_idx]), [end_sentence_idx] after the greedy loop,
    [chunk_sentences] and [chunk_token_count]. *)
Record chunk_info : Type := ChunkInfo {
  c_start : nat;
  c_stop : nat;
  c_sentences : list string;
  c_token_count : Z
}.

(** The string the code appends for a chunk (line 47). *)
Definition chunk_text (c : chunk_info) : string := join " "%string (c_sentences c).

Section Core.
(** [sentence_data] (line 16): each sentence with its word count. *)
Variable sentence_data : list (string * nat).
Variables num_tokens token_overlap : Z.

(** [sentence_data[i][1]]; every use below is in range. *)
Definition count_at (i : nat) : Z := Z.of_nat (nth i (map snd sentence_data) 0%nat).

(** Token count of the sentences with index in [[a, b)]. *)
Definition span (a b : nat) : list (string * nat) :=
  take (b - a) (drop a sentence_data).

Definition tokens_of (l : list (string * nat)) : Z :=
  fold_right (fun sc acc => Z.of_nat (snd sc) + acc) 0 l.

Definition span_tokens (a b : nat) : Z := tokens_of (span a b).

(** The greedy inner loop (lines 27-44).  [rest] is
    [sentence_data[end_sentence_idx:]]; the loop condition
    [end_sentence_idx < len(sentence_data)] is [rest] being non-empty. *)
Fixpoint build_chunk (rest : list (string * nat)) (chunk_sentences : list string)
    (chunk_token_count : Z) (end_sentence_idx : nat) : list string * Z * nat :=
  match rest with
  | [] => (chunk_sentences, chunk_token_count, end_sentence_idx)
  | (sentence, count) :: rest' =>
      if bool_decide (chunk_sentences = []) && (Z.of_nat count >? num_tokens) then
        (chunk_sentences ++ [sentence], chunk_token_count + Z.of_nat count,
         S end_sentence_idx)
      else if chunk_token_count + Z.of_nat count >? num_tokens then
        (chunk_sentences, chunk_token_count, end_sentence_idx)
      else
        build_chunk rest' (chunk_sentences ++ [sentence])
          (chunk_token_count + Z.of_nat count) (S end_sentence_idx)
  end.

(** Lines 21-44 for a cursor value. *)
Definition build (current_sentence_idx : nat) : chunk_info :=
  let '(chunk_sentences, chunk_token_count, end_sentence_idx) :=
    build_chunk (drop current_sentence_idx sentence_data) [] 0 current_sentence_idx in
  ChunkInfo current_sentence_idx end_sentence_idx chunk_sentences chunk_token_count.

(** The backward walk (lines 59-62), returning
    [(next_start_idx, overlap_token_count)] at loop exit. *)
Fixpoint overlap_walk (current_sentence_idx next_start_idx : nat)
    (overlap_token_count : Z) : nat * Z :=
  match next_start_idx with
  | O => (O, overlap_token_count)
  | S prev =>
      if (current_sentence_idx <? S prev)%nat && (overlap_token_count <? token_overlap) then
        overlap_walk current_sentence_idx prev (overlap_token_count + count_at (S prev))
      else (S prev, overlap_token_count)
  end.

(** Lines 55-66: the cursor of the next iteration. *)
Definition next_cursor (current_sentence_idx end_sentence_idx : nat) : nat :=
  let next_start_idx := fst (overlap_walk current_sentence_idx (end_sentence_idx - 1) 0) in
  Nat.max (next_start_idx + 1) (current_sentence_idx + 1).

(** The outer loop (lines 20-66), recording a [chunk_info] per appended
    chunk. *)
Equations? split_loop (current_sentence_idx : nat) (chunks : list chunk_info)
  : list chunk_info by wf (length sentence_data - current_sentence_idx)%nat lt :=
  split_loop cur chunks with lt_dec cur (length sentence_data) := {
    | right _ => chunks
    | left _ =>
        if (length sentence_data <=? c_stop (build cur))%nat
        then chunks ++ [build cur]
        else split_loop (next_cursor cur (c_stop (build cur))) (chunks ++ [build cur]) }.
Proof. unfold next_cursor. lia. Qed.

(** The same loop on the strings the code keeps in [chunks]. *)
Equations? split_loop_text (current_sentence_idx : nat) (chunks : list string)
  : list string by wf (length sentence_data - current_sentence_idx)%nat lt :=
  split_loop_text cur chunks with lt_dec cur (length sentence_data) := {
    | right _ => chunks
    | left _ =>
        if (length sentence_data <=? c_stop (build cur))%nat
        then chunks ++ [join " "%string (c_sentences (build cur))]
        else split_loop_text (next_cursor cur (c_stop (build cur)))
               (chunks ++ [join " "%string (c_sentences (build cur))]) }.
Proof. unfold next_cursor. lia. Qed.

(** *** Unfolding the loops *)

Lemma split_loop_done cur chunks :
  (length sentence_data <= cur)%nat -> split_loop cur chunks = chunks.
Proof.
  intros H. rewrite split_loop_equation_1.
  destruct (lt_dec cur (length sentence_data)); [lia | reflexivity].
Qed.

Lemma split_loop_last cur chunks :
  (cur < length sentence_data)%nat ->
  (length sentence_data <= c_stop (build cur))%nat ->
  split_loop cur chunks = chunks ++ [build cur].
Proof.
  intros H1 H2. rewrite split_loop_equation_1.
  destruct (lt_dec cur (length sentence_data)); [| lia]. simpl.
  apply Nat.leb_le in H2. rewrite H2. reflexivity.
Qed.

Lemma split_loop_step cur chunks :
  (cur < length sentence_data)%nat ->
  (c_stop (build cur) < length sentence_data)%nat ->
  split_loop cur chunks =
  split_loop (next_cursor cur (c_stop (build cur))) (chunks ++ [build cur]).
Proof.
  intros H1 H2. rewrite split_loop_equation_1.
  destruct (lt_dec cur (length sentence_data)); [| lia]. simpl.
  apply Nat.leb_gt in H2. rewrite H2. reflexivity.
Qed.

Lemma next_cursor_advances cur e : (cur + 1 <= next_cursor cur e)%nat.
Proof. unfold next_cursor. lia. Qed.

(** The loop only ever appends to [chunks]. *)
Lemma split_loop_app cur chunks :
  split_loop cur chunks = chunks ++ split_loop cur [].
Proof.
  remember (length sentence_data - cur)%nat as m eqn:Hm.
  revert cur chunks Hm. induction m as [m IH] using lt_wf_ind. intros cur chunks Hm.
  destruct (le_lt_dec (length sentence_data) cur) as [Hge | Hlt].
  - rewrite !split_loop_done by lia. now rewrite app_nil_r.
  - destruct (le_lt_dec (length sentence_data) (c_stop (build cur))) as [Hl | Hs].
    + rewrite !split_loop_last by lia. reflexivity.
    + rewrite (split_loop_step cur chunks), (split_loop_step cur []) by lia.
      pose proof (next_cursor_advances cur (c_stop (build cur))) as Hadv.
      rewrite (IH (length sentence_data - next_cursor cur (c_stop (build cur)))%nat
                 ltac:(lia) _ (chunks ++ [build cur]) eq_refl).
      rewrite (IH (length sentence_data - next_cursor cur (c_stop (build cur)))%nat
                 ltac:(lia) _ ([] ++ [build cur]) eq_refl).
      now rewrite <- app_assoc.
Qed.

(** The strings kept by the code are the texts of the recorded chunks. *)
Lemma split_loop_text_erase cur chunks :
  split_loop_text cur (map chunk_text chunks) = map chunk_text (split_loop cur chunks).
Proof.
  remember (length sentence_data - cur)%nat as m eqn:Hm.
  revert cur chunks Hm. induction m as [m IH] using lt_wf_ind. intros cur chunks Hm.
  rewrite split_loop_text_equation_1, split_loop_equation_1.
  destruct (lt_dec cur (length sentence_data)) as [Hlt | Hge]; simpl; [| reflexivity].
  destruct (length sentence_data <=? c_stop (build cur))%nat.
  - now rewrite map_app.
  - pose proof (next_cursor_advances cur (c_stop (build cur))) as Hadv.
    rewrite <- (IH (length sentence_data - next_cursor cur (c_stop (build cur)))%nat
                  ltac:(lia) _ (chunks ++ [build cur]) eq_refl).
    now rewrite map_app.
Qed.

(** *** The run of the loop as a derivation

    [run cur tr]: started with the cursor at [cur], the loop appends
    exactly the chunks [tr]. *)
Inductive run : nat -> list chunk_info -> Prop :=
| run_exit cur :
    (length sentence_data <= cur)%nat -> run cur []
| run_break cur :
    (cur < length sentence_data)%nat ->
    (length sentence_data <= c_stop (build cur))%nat ->
    run cur [build cur]
| run_next cur tr :
    (cur < length sentence_data)%nat ->
    (c_stop (build cur) < length sentence_data)%nat ->
    run (next_cursor cur (c_stop (build cur))) tr ->
    run cur (build cur :: tr).

Lemma split_loop_run cur : run cur (split_loop cur []).
Proof.
  remember (length sentence_data - cur)%nat as m eqn:Hm.
  revert cur Hm. induction m as [m IH] using lt_wf_ind. intros cur Hm.
  destruct (le_lt_dec (length sentence_data) cur) as [Hge | Hlt].
  - rewrite split_loop_done by lia. now constructor.
  - destruct (le_lt_dec (length sentence_data) (c_stop (build cur))) as [Hl | Hs].
    + rewrite split_loop_last by lia. now constructor.
    + rewrite split_loop_step, split_loop_app by lia. simpl.
      pose proof (next_cursor_advances cur (c_stop (build cur))) as Hadv.
      constructor; try lia.
      apply (IH (length sentence_data - next_cursor cur (c_stop (build cur)))%nat); lia.
Qed.

(** *** Token counts of spans *)

Lemma tokens_of_app l1 l2 : tokens_of (l1 ++ l2) = tokens_of l1 + tokens_of l2.
Proof. induction l1 as [| x l1 IH]; simpl; [reflexivity | rewrite IH; lia]. Qed.

Lemma tokens_of_nonneg l : 0 <= tokens_of l.
Proof. induction l as [| x l IH]; simpl; lia. Qed.

Lemma count_at_lookup i x : sentence_data !! i = Some x -> count_at i = Z.of_nat (snd x).
Proof.
  intros H. unfold count_at. rewrite nth_lookup, list_lookup_fmap, H. reflexivity.
Qed.

Lemma count_at_nonneg i : 0 <= count_at i.
Proof. unfold count_at. lia. Qed.

Lemma span_nil a : span a a = [].
Proof. unfold span. now rewrite Nat.sub_diag. Qed.

Lemma span_snoc a b x :
  (a <= b)%nat -> sentence_data !! b = Some x -> span a (S b) = span a b ++ [x].
Proof.
  intros Hab Hx. unfold span. replace (S b - a)%nat with (S (b - a)) by lia.
  apply take_S_r. rewrite lookup_drop. now replace (a + (b - a))%nat with b by lia.
Qed.

Lemma span_cons a b x :
  (a < b)%nat -> sentence_data !! a = Some x -> span a b = x :: span (S a) b.
Proof.
  intros Hab Hx. unfold span. rewrite (drop_S _ _ _ Hx).
  replace (b - a)%nat with (S (b - S a)) by lia. reflexivity.
Qed.

Lemma span_split a b c :
  (a <= b)%nat -> (b <= c)%nat -> span a c = span a b ++ span b c.
Proof.
  intros Hab Hbc. unfold span.
  replace (c - a)%nat with ((b - a) + (c - b))%nat by lia.
  rewrite <- take_take_drop, drop_drop. now replace (a + (b - a))%nat with b by lia.
Qed.

Lemma span_tokens_nil a : span_tokens a a = 0.
Proof. unfold span_tokens. now rewrite span_nil. Qed.

Lemma span_tokens_snoc a b :
  (a <= b)%nat -> (b < length sentence_data)%nat ->
  span_tokens a (S b) = span_tokens a b + count_at b.
Proof.
  intros Hab Hb. destruct (lookup_lt_is_Some_2 sentence_data b Hb) as [x Hx].
  unfold span_tokens. rewrite (span_snoc a b x Hab Hx), tokens_of_app.
  rewrite (count_at_lookup b x Hx). simpl. lia.
Qed.

Lemma span_tokens_cons a b :
  (a < b)%nat -> (a < length sentence_data)%nat ->
  span_tokens a b = count_at a + span_tokens (S a) b.
Proof.
  intros Hab Ha. destruct (lookup_lt_is_Some_2 sentence_data a Ha) as [x Hx].
  unfold span_tokens. rewrite (span_cons a b x Hab Hx).
  rewrite (count_at_lookup a x Hx). reflexivity.
Qed.

Lemma span_tokens_split a b c :
  (a <= b)%nat -> (b <= c)%nat -> span_tokens a c = span_tokens a b + span_tokens b c.
Proof.
  intros Hab Hbc. unfold span_tokens. now rewrite (span_split a b c), tokens_of_app.
Qed.

Lemma span_tokens_nonneg a b : 0 <= span_tokens a b.
Proof. apply tokens_of_nonneg. Qed.

(** A span weighs at least as much as any sentence in it. *)
Lemma span_tokens_member a b i :
  (a <= i)%nat -> (i < b)%nat -> (i < length sentence_data)%nat ->
  count_at i <= span_tokens a b.
Proof.
  intros Hai Hib Hi.
  rewrite (span_tokens_split a i b), (span_tokens_cons i b) by lia.
  pose proof (span_tokens_nonneg a i). pose proof (span_tokens_nonneg (S i) b). lia.
Qed.

(** *** The greedy inner loop *)

Lemma build_chunk_shape rest cs tc e cs' tc' e' :
  build_chunk rest cs tc e = (cs', tc', e') ->
  exists k, (k <= length rest)%nat /\ e' = (e + k)%nat /\
    cs' = cs ++ map fst (take k rest) /\ tc' = tc + tokens_of (take k rest).
Proof.
  revert cs tc e. induction rest as [| [s c] rest IH]; intros cs tc e H; simpl in H.
  - inversion H; subst. exists 0%nat. simpl. rewrite app_nil_r. repeat split; lia.
  - destruct (bool_decide (cs = []) && (Z.of_nat c >? num_tokens)).
    { inversion H; subst. exists 1%nat. simpl. repeat split; lia. }
    destruct (tc + Z.of_nat c >? num_tokens).
    { inversion H; subst. exists 0%nat. simpl. rewrite app_nil_r. repeat split; lia. }
    apply IH in H as (k & Hk & -> & -> & ->). exists (S k). simpl.
    rewrite <- app_assoc. simpl. repeat split; lia.
Qed.

(** Once the chunk is non-empty the running count stays within the
    limit. *)
Lemma build_chunk_bound rest cs tc e cs' tc' e' :
  cs <> [] -> tc <= num_tokens ->
  build_chunk rest cs tc e = (cs', tc', e') -> tc' <= num_tokens.
Proof.
  revert cs tc e. induction rest as [| [s c] rest IH]; intros cs tc e Hcs Htc H; simpl in H.
  - inversion H; subst. exact Htc.
  - rewrite (bool_decide_eq_false_2 _ Hcs) in H. simpl in H.
    destruct (tc + Z.of_nat c >? num_tokens) eqn:E.
    + inversion H; subst. exact Htc.
    + apply (IH (cs ++ [s]) (tc + Z.of_nat c) (S e)); [| lia | exact H].
      intros Habs. now apply app_eq_nil in Habs as [_ ?].
Qed.

(** The loop takes every prefix that fits. *)
Lemma build_chunk_greedy rest cs tc e cs' tc' e' j :
  0 <= tc -> (j <= length rest)%nat -> tc + tokens_of (take j rest) <= num_tokens ->
  build_chunk rest cs tc e = (cs', tc', e') -> (e + j <= e')%nat.
Proof.
  revert cs tc e j.
  induction rest as [| [s c] rest IH]; intros cs tc e j Htc Hj Hfit H.
  - simpl in Hj. simpl in H. inversion H; subst. lia.
  - destruct j as [| j].
    { apply build_chunk_shape in H as (k & _ & -> & _). lia. }
    simpl in Hj, Hfit, H. pose proof (tokens_of_nonneg (take j rest)) as Hnn.
    replace (Z.of_nat c >? num_tokens) with false in H
      by (symmetry; rewrite Z.gtb_ltb; apply Z.ltb_ge; lia).
    rewrite andb_false_r in H.
    replace (tc + Z.of_nat c >? num_tokens) with false in H
      by (symmetry; rewrite Z.gtb_ltb; apply Z.ltb_ge; lia).
    apply (IH _ _ _ j) in H; lia.
Qed.

Lemma span_take cur k : span cur (cur + k) = take k (drop cur sentence_data).
Proof. unfold span. now replace (cur + k - cur)%nat with k by lia. Qed.

Lemma build_start cur : c_start (build cur) = cur.
Proof.
  unfold build. now destruct (build_chunk _ _ _ _) as [[cs tc] e].
Qed.

(** The chunk built from [cur] is the span [[cur, c_stop)] of the
    sentence sequence, whole sentences in order, with its token sum. *)
Lemma build_span cur :
  (cur <= c_stop (build cur))%nat /\
  (c_stop (build cur) <= Nat.max cur (length sentence_data))%nat /\
  c_sentences (build cur) = map fst (span cur (c_stop (build cur))) /\
  c_token_count (build cur) = span_tokens cur (c_stop (build cur)).
Proof.
  unfold build. destruct (build_chunk _ _ _ _) as [[cs tc] e] eqn:E. simpl.
  apply build_chunk_shape in E as (k & Hk & -> & -> & ->).
  rewrite length_drop in Hk. unfold span_tokens. rewrite span_take. simpl.
  repeat split; lia.
Qed.

(** Every iteration takes at least one sentence. *)
Lemma build_progress cur :
  (cur < length sentence_data)%nat -> (cur < c_stop (build cur))%nat.
Proof.
  intros Hlt. unfold build.
  destruct (lookup_lt_is_Some_2 sentence_data cur Hlt) as [[s c] Hx].
  rewrite (drop_S _ _ _ Hx). simpl.
  destruct (Z.of_nat c >? num_tokens) eqn:E1; simpl; [lia |].
  rewrite Z.add_0_l, E1.
  destruct (build_chunk _ _ _ _) as [[cs tc] e] eqn:E. simpl.
  apply build_chunk_shape in E as (k & _ & -> & _). lia.
Qed.

(** A chunk is within the limit, or it is one sentence that alone
    exceeds it. *)
Lemma build_bound cur :
  (cur < length sentence_data)%nat ->
  c_token_count (build cur) <= num_tokens \/
  (c_stop (build cur) = S cur /\ num_tokens < count_at cur).
Proof.
  intros Hlt. unfold build.
  destruct (lookup_lt_is_Some_2 sentence_data cur Hlt) as [[s c] Hx].
  rewrite (drop_S _ _ _ Hx), (count_at_lookup cur _ Hx). simpl.
  destruct (Z.of_nat c >? num_tokens) eqn:E1; simpl.
  { right. rewrite Z.gtb_ltb in E1. apply Z.ltb_lt in E1. split; [reflexivity | lia]. }
  rewrite Z.add_0_l, E1. left.
  destruct (build_chunk _ _ _ _) as [[cs tc] e] eqn:E. simpl.
  rewrite Z.gtb_ltb in E1. apply Z.ltb_ge in E1.
  apply build_chunk_bound in E; [exact E | discriminate | lia].
Qed.

Lemma build_greedy cur j :
  (cur <= j)%nat -> (j <= length sentence_data)%nat ->
  span_tokens cur j <= num_tokens -> (j <= c_stop (build cur))%nat.
Proof.
  intros Hcj Hj Hfit. unfold build.
  destruct (build_chunk _ _ _ _) as [[cs tc] e] eqn:E. simpl.
  apply (build_chunk_greedy _ _ _ _ _ _ _ (j - cur)%nat) in E; try lia.
  - rewrite length_drop. lia.
  - unfold span_tokens, span in Hfit. lia.
Qed.

(** *** The backward walk *)

(** Where the walk stops: at [p] with [next_start_idx = p], having
    accumulated the sentences [p+1 .. nxt]; it stops because it reached
    the chunk's start or has enough overlap, and it did not stop
    earlier. *)
Lemma overlap_walk_spec cur nxt ov :
  (cur <= nxt)%nat -> (nxt < length sentence_data)%nat ->
  let p := fst (overlap_walk cur nxt ov) in
  (cur <= p)%nat /\ (p <= nxt)%nat /\
  snd (overlap_walk cur nxt ov) = ov + span_tokens (S p) (S nxt) /\
  (p = cur \/ token_overlap <= ov + span_tokens (S p) (S nxt)) /\
  (forall m, (p < m)%nat -> (m <= nxt)%nat ->
             ov + span_tokens (S m) (S nxt) < token_overlap).
Proof.
  revert ov. induction nxt as [| prev IH]; intros ov Hc Hn; simpl.
  - rewrite span_tokens_nil. repeat split; try lia; intros; lia.
  - destruct ((cur <? S prev)%nat && (ov <? token_overlap)) eqn:E.
    + apply andb_true_iff in E as [E1 E2].
      apply Nat.ltb_lt in E1. apply Z.ltb_lt in E2.
      destruct (IH (ov + count_at (S prev)) ltac:(lia) ltac:(lia))
        as (H1 & H2 & H3 & H4 & H5).
      set (p := fst (overlap_walk cur prev (ov + count_at (S prev)))) in *.
      rewrite (span_tokens_snoc (S p) (S prev)) by lia.
      repeat split; try lia.
      intros m Hm1 Hm2. destruct (decide (m = S prev)) as [-> | Hne].
      * rewrite span_tokens_nil. lia.
      * rewrite (span_tokens_snoc (S m) (S prev)) by lia.
        specialize (H5 m ltac:(lia) ltac:(lia)). lia.
    + simpl. rewrite span_tokens_nil.
      apply andb_false_iff in E.
      repeat split; try lia; try (intros; lia).
      destruct E as [E | E]; [apply Nat.ltb_ge in E | apply Z.ltb_ge in E]; lia.
Qed.

(** The [max] of line 66 never overrides the walk: the walk cannot go
    below the chunk's start, so its position plus one is already past
    the current cursor. *)
Lemma next_cursor_walk cur e :
  (cur < e)%nat -> (e <= length sentence_data)%nat ->
  next_cursor cur e = S (fst (overlap_walk cur (e - 1) 0)).
Proof.
  intros Hce He. unfold next_cursor.
  destruct (overlap_walk_spec cur (e - 1) 0 ltac:(lia) ltac:(lia)) as (H1 & _).
  lia.
Qed.

Lemma next_cursor_le cur e :
  (cur < e)%nat -> (e <= length sentence_data)%nat -> (next_cursor cur e <= e)%nat.
Proof.
  intros Hce He. rewrite next_cursor_walk by lia.
  destruct (overlap_walk_spec cur (e - 1) 0 ltac:(lia) ltac:(lia)) as (_ & H2 & _).
  lia.
Qed.

(** *** Facts about runs *)

Lemma run_head cur c tr :
  run cur (c :: tr) -> c = build cur /\ (cur < length sentence_data)%nat.
Proof. intros H. inversion H; subst; auto. Qed.

(** Every chunk of a run was built at its own start index. *)
Lemma run_built cur tr c :
  run cur tr -> c ∈ tr ->
  c = build (c_start c) /\ (c_start c < length sentence_data)%nat /\ (cur <= c_start c)%nat.
Proof.
  intros Hrun. induction Hrun as [cur Hge | cur Hlt Hl | cur tr Hlt Hs Hrun IH]; intros Hin.
  - inversion Hin.
  - apply list_elem_of_singleton in Hin as ->. rewrite build_start. auto.
  - pose proof (next_cursor_advances cur (c_stop (build cur))).
    apply elem_of_cons in Hin as [-> | Hin].
    + rewrite build_start. auto.
    + destruct (IH Hin) as (? & ? & ?). repeat split; auto; lia.
Qed.

(** Consecutive chunks: the second starts at the cursor computed from
    the first. *)
Lemma run_adjacent cur tr i c1 c2 :
  run cur tr -> tr !! i = Some c1 -> tr !! S i = Some c2 ->
  c1 = build (c_start c1) /\ c2 = build (c_start c2) /\
  (c_start c1 < length sentence_data)%nat /\
  (c_stop c1 < length sentence_data)%nat /\
  (c_start c2 < length sentence_data)%nat /\
  c_start c2 = next_cursor (c_start c1) (c_stop c1).
Proof.
  intros Hrun. revert i.
  induction Hrun as [cur Hge | cur Hlt Hl | cur tr Hlt Hs Hrun IH]; intros i H1 H2.
  - discriminate.
  - destruct i; discriminate.
  - destruct i as [| i]; simpl in H1, H2.
    + inversion H1; subst c1. destruct tr as [| c tr]; [discriminate |].
      simpl in H2. inversion H2; subst c.
      apply run_head in Hrun as [Hc2 Hlt2].
      assert (Hs2 : c_start c2 = next_cursor cur (c_stop (build cur)))
        by (rewrite Hc2; apply build_start).
      rewrite build_start, Hs2. repeat split; auto.
    + eapply IH; eauto.
Qed.

Lemma run_nonempty cur tr :
  run cur tr -> (cur < length sentence_data)%nat -> tr <> [].
Proof. intros H Hlt. inversion H; subst; [lia | discriminate | discriminate]. Qed.

(** One iteration per cursor value at most. *)
Lemma run_length cur tr :
  run cur tr -> (length tr <= length sentence_data - cur)%nat.
Proof.
  intros H. induction H as [cur Hge | cur Hlt Hl | cur tr Hlt Hs Hrun IH]; simpl; try lia.
  pose proof (next_cursor_advances cur (c_stop (build cur))). lia.
Qed.

(** Every sentence from the cursor on lies in the span of some chunk. *)
Lemma run_covers cur tr i :
  run cur tr -> (cur <= i)%nat -> (i < length sentence_data)%nat ->
  exists c, c ∈ tr /\ (c_start c <= i)%nat /\ (i < c_stop c)%nat.
Proof.
  intros Hrun. induction Hrun as [cur Hge | cur Hlt Hl | cur tr Hlt Hs Hrun IH]; intros Hci Hi.
  - lia.
  - exists (build cur). rewrite build_start. split; [apply list_elem_of_singleton; auto | lia].
  - destruct (le_lt_dec (c_stop (build cur)) i) as [Hout | Hin].
    + pose proof (build_progress cur Hlt).
      pose proof (next_cursor_le cur (c_stop (build cur)) ltac:(lia) ltac:(lia)).
      destruct (IH ltac:(lia) Hi) as (c & Hc & ? & ?).
      exists c. split; [apply elem_of_cons; auto | lia].
    + exists (build cur). rewrite build_start. split; [apply elem_of_cons; auto | lia].
Qed.

Lemma span_lookup a b k :
  (k < b - a)%nat -> span a b !! k = sentence_data !! (a + k)%nat.
Proof. intros Hk. unfold span. now rewrite lookup_take_lt, lookup_drop by lia. Qed.

(** A chunk that was built at [cur]: its sentences are the span
    [[cur, c_stop)], it is non-empty, and it obeys the limit unless it
    is a lone oversized sentence. *)
Lemma build_chunk_ok cur :
  (cur < length sentence_data)%nat ->
  (cur < c_stop (build cur))%nat /\
  (c_stop (build cur) <= length sentence_data)%nat /\
  c_sentences (build cur) = map fst (span cur (c_stop (build cur))) /\
  c_token_count (build cur) = span_tokens cur (c_stop (build cur)) /\
  (c_token_count (build cur) <= num_tokens \/
   (c_stop (build cur) = S cur /\ num_tokens < count_at cur /\
    c_token_count (build cur) = count_at cur)).
Proof.
  intros Hlt. destruct (build_span cur) as (H1 & H2 & H3 & H4).
  pose proof (build_progress cur Hlt) as H5.
  repeat split; try assumption; try lia.
  destruct (build_bound cur Hlt) as [Hb | [Hb1 Hb2]]; [left; exact Hb | right].
  repeat split; try assumption.
  rewrite H4, Hb1, (span_tokens_snoc cur cur), span_tokens_nil by lia. lia.
Qed.

(** An oversized sentence is never part of a longer chunk. *)
Lemma oversized_alone cur i :
  (cur < length sentence_data)%nat ->
  (cur <= i)%nat -> (i < c_stop (build cur))%nat -> num_tokens < count_at i ->
  cur = i /\ c_stop (build cur) = S i.
Proof.
  intros Hlt Hci Hi Hbig.
  destruct (build_chunk_ok cur Hlt) as (H1 & H2 & _ & H4 & [Hb | (Hb & _ & _)]).
  - pose proof (span_tokens_member cur (c_stop (build cur)) i Hci Hi ltac:(lia)). lia.
  - lia.
Qed.

(** What the code does between two consecutive chunks. *)
Lemma run_overlap cur tr i c1 c2 :
  run cur tr -> tr !! i = Some c1 -> tr !! S i = Some c2 ->
  let p := fst (overlap_walk (c_start c1) (c_stop c1 - 1) 0) in
  c_start c2 = Nat.max (p + 1) (c_start c1 + 1) /\
  (c_start c1 <= p)%nat /\ (p < c_stop c1)%nat /\
  (p = c_start c1 \/ token_overlap <= span_tokens (S p) (c_stop c1)) /\
  (forall m, (p < m)%nat -> (m < c_stop c1)%nat ->
             span_tokens (S m) (c_stop c1) < token_overlap) /\
  (c_start c1 < c_start c2)%nat /\
  (c_start c2 <= c_stop c1)%nat /\ (c_stop c1 <= c_stop c2)%nat /\
  (token_overlap <= span_tokens (c_start c2) (c_stop c1) \/
   c_start c2 = S (c_start c1)).
Proof.
  intros Hrun H1 H2.
  destruct (run_adjacent cur tr i c1 c2 Hrun H1 H2) as (E1 & E2 & L1 & L2 & L3 & Hnext).
  set (s1 := c_start c1) in *. set (s2 := c_start c2) in *.
  assert (Hp1 : (s1 < c_stop c1)%nat) by (rewrite E1; now apply build_progress).
  destruct (overlap_walk_spec s1 (c_stop c1 - 1) 0 ltac:(lia) ltac:(lia))
    as (W1 & W2 & _ & W4 & W5).
  replace (S (c_stop c1 - 1)) with (c_stop c1) in * by lia.
  pose proof (next_cursor_walk s1 (c_stop c1) Hp1 ltac:(lia)) as Hw.
  simpl. set (p := fst (overlap_walk s1 (c_stop c1 - 1) 0)) in *.
  assert (Hs2 : s2 = S p) by congruence.
  assert (Hstop : (c_stop c1 <= c_stop c2)%nat).
  { destruct (decide (s2 = c_stop c1)) as [Heq | Hne].
    - rewrite E2. pose proof (build_progress s2 L3). fold s2. lia.
    - rewrite E2. fold s2. apply build_greedy; try lia.
      destruct (build_chunk_ok s1 L1) as (_ & _ & _ & T & [Hb | (Hb & _ & _)]);
        rewrite <- E1 in *; [| lia].
      rewrite T, (span_tokens_split s1 s2 (c_stop c1)) in Hb by lia.
      pose proof (span_tokens_nonneg s1 s2). lia. }
  split; [exact Hnext |]. split; [lia |]. split; [lia |].
  split; [destruct W4 as [W4 | W4]; [left; exact W4 | right; lia] |].
  split; [intros m Hm1 Hm2; specialize (W5 m Hm1 ltac:(lia)); lia |].
  split; [lia |]. split; [lia |]. split; [exact Hstop |].
  rewrite Hs2. destruct W4 as [W4 | W4]; [right; lia | left; lia].
Qed.

End Core.

(** *** The function on text *)

Section Text.
Variable sent_tokenize : string -> list string.
Variable word_tokenize : string -> list string.

(** Line 16. *)
Definition sentence_data_of (text : string) : list (string * nat) :=
  map (fun s => (s, length (word_tokenize s))) (sent_tokenize text).

(** Lines 6-68. *)
Definition sentence_aware_splitter (text : string) (num_tokens token_overlap : Z)
  : result (list string) :=
  if num_tokens <=? token_overlap then
    Raise (ValueError "num_tokens must be greater than token_overlap")
  else
    let sentences := sent_tokenize text in
    if bool_decide (sentences = []) then Ok []
    else
      let sentence_data := map (fun s => (s, length (word_tokenize s))) sentences in
      Ok (split_loop_text sentence_data num_tokens token_overlap 0 []).

(** The chunks of a call with the locals that produced them. *)
Definition splitter_trace (text : string) (num_tokens token_overlap : Z) : list chunk_info :=
  split_loop (sentence_data_of text) num_tokens token_overlap 0 [].

(** At most one chunk is over the limit. *)
Definition at_most_one_over_limit (num_tokens : Z) (tr : list chunk_info) : Prop :=
  forall i j ci cj, tr !! i = Some ci -> tr !! j = Some cj ->
    num_tokens < c_token_count ci -> num_tokens < c_token_count cj -> i = j.

Lemma splitter_returns text num_tokens token_overlap :
  token_overlap < num_tokens ->
  sentence_aware_splitter text num_tokens token_overlap =
  Ok (map chunk_text (splitter_trace text num_tokens token_overlap)).
Proof.
  intros Hvalid. unfold sentence_aware_splitter, splitter_trace, sentence_data_of.
  replace (num_tokens <=? token_overlap) with false by (symmetry; apply Z.leb_gt; lia).
  case_bool_decide as Hs.
  - rewrite Hs. simpl. now rewrite split_loop_done by (simpl; lia).
  - f_equal. apply (split_loop_text_erase _ _ _ 0%nat []).
Qed.

Lemma splitter_raises text num_tokens token_overlap :
  num_tokens <= token_overlap ->
  sentence_aware_splitter text num_tokens token_overlap =
  Raise (ValueError "num_tokens must be greater than token_overlap").
Proof.
  intros H. unfold sentence_aware_splitter.
  now replace (num_tokens <=? token_overlap) with true by (symmetry; apply Z.leb_le; lia).
Qed.

Lemma splitter_trace_run text num_tokens token_overlap :
  run (sentence_data_of text) num_tokens token_overlap 0
      (splitter_trace text num_tokens token_overlap).
Proof. apply split_loop_run. Qed.

Lemma sentence_data_length text :
  length (sentence_data_of text) = length (sent_tokenize text).
Proof. unfold sentence_data_of. apply length_map. Qed.

(** C1. For [num_tokens > token_overlap >= 0] and a text with at least
    one sentence, the call returns (it does not raise and the loop runs
    to its end) a list of at least one chunk, and at most one chunk per
    sentence; the cursor of each iteration is at least one sentence
    past the cursor of the iteration before it, whatever the backward
    walk computed. *)
Theorem sentence_aware_splitter_terminates text num_tokens token_overlap :
  token_overlap < num_tokens -> 0 <= token_overlap -> sent_tokenize text <> [] ->
  exists chunks,
    sentence_aware_splitter text num_tokens token_overlap = Ok chunks /\
    chunks = map chunk_text (splitter_trace text num_tokens token_overlap) /\
    (1 <= length chunks)%nat /\ (length chunks <= length (sent_tokenize text))%nat /\
    (forall i c1 c2,
        splitter_trace text num_tokens token_overlap !! i = Some c1 ->
        splitter_trace text num_tokens token_overlap !! S i = Some c2 ->
        (c_start c1 + 1 <= c_start c2)%nat) /\
    (forall cur e, (cur + 1 <= next_cursor (sentence_data_of text) token_overlap cur e)%nat).
Proof.
  intros Hvalid Hov Hne.
  exists (map chunk_text (splitter_trace text num_tokens token_overlap)).
  pose proof (splitter_trace_run text num_tokens token_overlap) as Hrun.
  split; [now apply splitter_returns |]. split; [reflexivity |].
  rewrite length_map. split; [| split; [| split]].
  - assert (Hpos : (0 < length (sentence_data_of text))%nat).
    { rewrite sentence_data_length. destruct (sent_tokenize text); [congruence | simpl; lia]. }
    pose proof (run_nonempty _ _ _ _ _ Hrun Hpos) as Hnil.
    destruct (splitter_trace text num_tokens token_overlap); [congruence | simpl; lia].
  - pose proof (run_length _ _ _ _ _ Hrun) as Hlen.
    rewrite sentence_data_length in Hlen. lia.
  - intros i c1 c2 H1 H2.
    destruct (run_adjacent _ _ _ _ _ _ _ _ Hrun H1 H2) as (_ & _ & _ & _ & _ & ->).
    apply next_cursor_advances.
  - intros cur e. apply next_cursor_advances.
Qed.

(** C2 (amended). Every chunk of a valid call is the span of sentences
    [[c_start, c_stop)] with the sum of their token counts, and either
    that sum is at most [num_tokens] or the chunk is a single sentence
    whose own count exceeds [num_tokens]; nothing limits the number of
    such single-sentence chunks. *)
Theorem chunk_token_bound text num_tokens token_overlap c :
  token_overlap < num_tokens ->
  c ∈ splitter_trace text num_tokens token_overlap ->
  sentence_aware_splitter text num_tokens token_overlap =
    Ok (map chunk_text (splitter_trace text num_tokens token_overlap)) /\
  c_sentences c = map fst (span (sentence_data_of text) (c_start c) (c_stop c)) /\
  c_token_count c = span_tokens (sentence_data_of text) (c_start c) (c_stop c) /\
  (c_token_count c <= num_tokens \/
   (c_stop c = S (c_start c) /\
    num_tokens < count_at (sentence_data_of text) (c_start c) /\
    c_token_count c = count_at (sentence_data_of text) (c_start c))).
Proof.
  intros Hvalid Hin. split; [now apply splitter_returns |].
  pose proof (splitter_trace_run text num_tokens token_overlap) as Hrun.
  destruct (run_built _ _ _ _ _ _ Hrun Hin) as (Hc & Hlt & _).
  destruct (build_chunk_ok _ num_tokens _ Hlt) as (_ & _ & H3 & H4 & H5).
  rewrite <- Hc in *. auto.
Qed.

(** C3. In a valid call every sentence of the segmentation lies in the
    span of some returned chunk, at its place and whole; a sentence whose
    own count exceeds [num_tokens] is a chunk by itself, and every chunk
    that holds it is exactly that sentence. *)
Theorem every_sentence_covered text num_tokens token_overlap i s cnt :
  token_overlap < num_tokens ->
  sentence_data_of text !! i = Some (s, cnt) ->
  sentence_aware_splitter text num_tokens token_overlap =
    Ok (map chunk_text (splitter_trace text num_tokens token_overlap)) /\
  (exists c, c ∈ splitter_trace text num_tokens token_overlap /\
     (c_start c <= i)%nat /\ (i < c_stop c)%nat /\
     c_sentences c !! (i - c_start c)%nat = Some s) /\
  (num_tokens < Z.of_nat cnt ->
     (exists c, c ∈ splitter_trace text num_tokens token_overlap /\
        c_start c = i /\ c_stop c = S i /\ c_sentences c = [s] /\ chunk_text c = s) /\
     (forall c, c ∈ splitter_trace text num_tokens token_overlap ->
        (c_start c <= i)%nat -> (i < c_stop c)%nat ->
        c_sentences c = [s] /\ chunk_text c = s)).
Proof.
  intros Hvalid Hi. split; [now apply splitter_returns |].
  pose proof (splitter_trace_run text num_tokens token_overlap) as Hrun.
  set (sd := sentence_data_of text) in *.
  assert (Hlen : (i < length sd)%nat) by (eapply lookup_lt_Some; eauto).
  assert (Hcov : forall c, c ∈ splitter_trace text num_tokens token_overlap ->
            (c_start c <= i)%nat -> (i < c_stop c)%nat ->
            c_sentences c !! (i - c_start c)%nat = Some s).
  { intros c Hin Ha Hb.
    destruct (run_built _ _ _ _ _ _ Hrun Hin) as (Hc & Hlt & _).
    destruct (build_chunk_ok sd num_tokens _ Hlt) as (_ & _ & H3 & _).
    rewrite <- Hc in H3. rewrite H3, list_lookup_fmap, span_lookup by lia.
    replace (c_start c + (i - c_start c))%nat with i by lia. now rewrite Hi. }
  assert (Halone : num_tokens < Z.of_nat cnt ->
            forall c, c ∈ splitter_trace text num_tokens token_overlap ->
            (c_start c <= i)%nat -> (i < c_stop c)%nat ->
            c_start c = i /\ c_stop c = S i /\ c_sentences c = [s] /\ chunk_text c = s).
  { intros Hbig c Hin Ha Hb.
    destruct (run_built _ _ _ _ _ _ Hrun Hin) as (Hc & Hlt & _).
    pose proof (oversized_alone sd num_tokens (c_start c) i Hlt Ha) as Hal.
    rewrite <- Hc in Hal. rewrite (count_at_lookup sd i _ Hi) in Hal.
    destruct (Hal Hb Hbig) as [E1 E2].
    destruct (build_chunk_ok sd num_tokens _ Hlt) as (_ & _ & H3 & _).
    rewrite <- Hc in H3.
    assert (Hs : c_sentences c = [s]).
    { rewrite H3, E1, E2, (span_snoc sd i i (s, cnt)), span_nil by (auto; lia).
      reflexivity. }
    unfold chunk_text. rewrite Hs. auto. }
  destruct (run_covers sd num_tokens token_overlap 0 _ i Hrun ltac:(lia) Hlen)
    as (c & Hin & Ha & Hb).
  split.
  - exists c. auto.
  - intros Hbig. split.
    + exists c. split; [exact Hin |]. now apply Halone.
    + intros c' Hin' Ha' Hb'. now destruct (Halone Hbig c' Hin' Ha' Hb') as (_ & _ & ? & ?).
Qed.

(** C4. Between a chunk and the one emitted after it: the next start is
    the [max] of line 66 applied to the position [p] at which the
    backward walk from the chunk's last sentence stops; the walk stops
    at the chunk's start or as soon as the sentences after [p] weigh at
    least [token_overlap], not earlier; the next start is past the
    current start and not past the current end, the next chunk reaches
    at least as far as the current one, so the shared sentences are
    those from the next start to the current end, and they weigh at
    least [token_overlap] unless the next start is the sentence right
    after the current start. *)
Theorem next_chunk_start text num_tokens token_overlap i c1 c2 :
  token_overlap < num_tokens ->
  splitter_trace text num_tokens token_overlap !! i = Some c1 ->
  splitter_trace text num_tokens token_overlap !! S i = Some c2 ->
  let sd := sentence_data_of text in
  let p := fst (overlap_walk sd token_overlap (c_start c1) (c_stop c1 - 1) 0) in
  sentence_aware_splitter text num_tokens token_overlap =
    Ok (map chunk_text (splitter_trace text num_tokens token_overlap)) /\
  c_start c2 = Nat.max (p + 1) (c_start c1 + 1) /\
  (c_start c1 <= p)%nat /\ (p < c_stop c1)%nat /\
  (p = c_start c1 \/ token_overlap <= span_tokens sd (S p) (c_stop c1)) /\
  (forall m, (p < m)%nat -> (m < c_stop c1)%nat ->
             span_tokens sd (S m) (c_stop c1) < token_overlap) /\
  (c_start c1 < c_start c2)%nat /\
  (c_start c2 <= c_stop c1)%nat /\ (c_stop c1 <= c_stop c2)%nat /\
  (token_overlap <= span_tokens sd (c_start c2) (c_stop c1) \/
   c_start c2 = S (c_start c1)).
Proof.
  intros Hvalid H1 H2 sd p. split; [now apply splitter_returns |].
  exact (run_overlap sd num_tokens token_overlap 0 _ i c1 c2
           (splitter_trace_run text num_tokens token_overlap) H1 H2).
Qed.

End Text.

(** *** The theorems at concrete texts *)

Abbreviation simple_splitter :=
  (sentence_aware_splitter SimpleTokenizers.sent_tokenize SimpleTokenizers.word_tokenize).
Abbreviation simple_trace :=
  (splitter_trace SimpleTokenizers.sent_tokenize SimpleTokenizers.word_tokenize).
Abbreviation simple_data :=
  (sentence_data_of SimpleTokenizers.sent_tokenize SimpleTokenizers.word_tokenize).

Definition text_five : string := "It rains. We stay. They go. You come. I wait.".
Definition text_two_long : string := "The cat sat on the mat. The dog ran in the park.".
Definition text_four : string := "One two three. Four five. Six seven eight nine. Ten.".

(** The first two chunks of [text_four] with a limit of 8 and overlap 3. *)
Definition four_chunk0 : chunk_info :=
  ChunkInfo 0 2 ["One two three."%string; "Four five."%string] 7.
Definition four_chunk1 : chunk_info :=
  ChunkInfo 1 3 ["Four five."%string; "Six seven eight nine."%string] 8.

Lemma sentence_aware_splitter_terminates_witness :
  (3 < 10 /\ 0 <= 3 /\ SimpleTokenizers.sent_tokenize text_five <> []) /\
  exists chunks, simple_splitter text_five 10 3 = Ok chunks /\
    (1 <= length chunks)%nat /\ (length chunks <= 5)%nat.
Proof.
  assert (H1 : 3 < 10) by lia. assert (H2 : 0 <= 3) by lia.
  assert (H3 : SimpleTokenizers.sent_tokenize text_five <> []) by (vm_compute; discriminate).
  split; [auto |].
  destruct (sentence_aware_splitter_terminates SimpleTokenizers.sent_tokenize
              SimpleTokenizers.word_tokenize text_five 10 3 H1 H2 H3)
    as (chunks & E & _ & L1 & L2 & _).
  exists chunks. auto.
Defined.

(** Two sentences of seven tokens each with a limit of three: both
    chunks are over the limit. *)
Lemma two_chunks_over_limit :
  simple_splitter text_two_long 3 0 = Ok ["The cat sat on the mat."%string; "The dog ran in the park."%string] /\
  ~ at_most_one_over_limit 3 (simple_trace text_two_long 3 0).
Proof.
  split; [vm_compute; reflexivity |].
  intros H.
  assert (E : simple_trace text_two_long 3 0 =
              [ChunkInfo 0 1 ["The cat sat on the mat."%string] 7; ChunkInfo 1 2 ["The dog ran in the park."%string] 7])
    by (vm_compute; reflexivity).
  rewrite E in H.
  specialize (H 0%nat 1%nat _ _ eq_refl eq_refl). simpl in H.
  assert (0 = 1)%nat by (apply H; lia). discriminate.
Qed.

Lemma chunk_token_bound_witness :
  (3 < 8 /\ four_chunk1 ∈ simple_trace text_four 8 3) /\
  (c_token_count four_chunk1 <= 8 \/
   (c_stop four_chunk1 = S (c_start four_chunk1) /\
    8 < count_at (simple_data text_four) (c_start four_chunk1) /\
    c_token_count four_chunk1 = count_at (simple_data text_four) (c_start four_chunk1))).
Proof.
  assert (H1 : 3 < 8) by lia.
  assert (H2 : four_chunk1 ∈ simple_trace text_four 8 3)
    by (apply (list_elem_of_lookup_2 _ 1%nat); vm_compute; reflexivity).
  split; [auto |].
  exact (proj2 (proj2 (proj2 (chunk_token_bound SimpleTokenizers.sent_tokenize
           SimpleTokenizers.word_tokenize text_four 8 3 four_chunk1 H1 H2)))).
Defined.

Lemma every_sentence_covered_witness :
  (1 < 4 /\ simple_data text_four !! 2%nat = Some ("Six seven eight nine."%string, 5%nat) /\
   4 < Z.of_nat 5) /\
  exists c, c ∈ simple_trace text_four 4 1 /\
    c_start c = 2%nat /\ c_stop c = 3%nat /\
    c_sentences c = ["Six seven eight nine."%string] /\
    chunk_text c = "Six seven eight nine."%string.
Proof.
  assert (H1 : 1 < 4) by lia.
  assert (H2 : simple_data text_four !! 2%nat = Some ("Six seven eight nine."%string, 5%nat))
    by (vm_compute; reflexivity).
  assert (H3 : 4 < Z.of_nat 5) by lia.
  split; [auto |].
  destruct (every_sentence_covered SimpleTokenizers.sent_tokenize
              SimpleTokenizers.word_tokenize text_four 4 1 2 _ _ H1 H2)
    as (_ & _ & Hbig).
  exact (proj1 (Hbig H3)).
Defined.

Lemma next_chunk_start_witness :
  (3 < 8 /\ simple_trace text_four 8 3 !! 0%nat = Some four_chunk0 /\
   simple_trace text_four 8 3 !! 1%nat = Some four_chunk1) /\
  (c_start four_chunk0 < c_start four_chunk1)%nat /\
  (c_start four_chunk1 <= c_stop four_chunk0)%nat /\
  (3 <= span_tokens (simple_data text_four) (c_start four_chunk1) (c_stop four_chunk0) \/
   c_start four_chunk1 = S (c_start four_chunk0)).
Proof.
  assert (H1 : 3 < 8) by lia.
  assert (H2 : simple_trace text_four 8 3 !! 0%nat = Some four_chunk0)
    by (vm_compute; reflexivity).
  assert (H3 : simple_trace text_four 8 3 !! 1%nat = Some four_chunk1)
    by (vm_compute; reflexivity).
  split; [auto |].
  destruct (next_chunk_start SimpleTokenizers.sent_tokenize SimpleTokenizers.word_tokenize
              text_four 8 3 0 four_chunk0 four_chunk1 H1 H2 H3)
    as (_ & _ & _ & _ & _ & _ & A & B & _ & D).
  auto.
Defined.

End Splitter.

(** ** parent_child_ingester.ParentChildIngester *)

Module Ingester.

(** A metadata value of an index entry: the code stores a string
    ([parent_id]) and an integer ([chunk_index]). *)
Inductive meta_value : Type :=
| MStr (s : string)
| MInt (n : Z).

#[global] Instance meta_value_eq_dec : EqDecision meta_value.
Proof. solve_decision. Defined.

#[global] Instance meta_value_countable : Countable meta_value.
Proof.
  refine (inj_countable'
    (fun v => match v with MStr s => inl s | MInt n => inr n end)
    (fun x => match x with inl s => MStr s | inr n => MInt n end) _).
  intros []; reflexivity.
Defined.

Abbreviation metadata := (gmap string meta_value).

(** What the vector index keeps under an id. *)
Record index_entry (Embedding : Type) : Type := IndexEntry {
  e_embedding : Embedding;
  e_metadata : metadata;
  e_document : string
}.
Arguments IndexEntry {Embedding} _ _ _.
Arguments e_embedding {Embedding} _.
Arguments e_metadata {Embedding} _.
Arguments e_document {Embedding} _.

(** The Chroma collection is an external library object.  The code uses
    two of its methods, [add] and [query]; [collection_entries] is the
    content of the collection as a map from ids to entries, in which the
    effect of [add] is stated. *)
Class VectorIndex (Embedding C : Type) : Type := {
  collection_add : C -> string -> Embedding -> metadata -> string -> C;
  collection_query : C -> Embedding -> Z -> option (list (list metadata));
  collection_entries : C -> gmap string (index_entry Embedding)
}.

(** Writing under an id replaces what was there (upsert by id). *)
Definition upsert_by_id {Embedding C : Type} `{!VectorIndex Embedding C} : Prop :=
  forall (c : C) id emb md doc,
    collection_entries (collection_add c id emb md doc) =
    <[id := IndexEntry emb md doc]> (collection_entries c).

(** *** A Python [dict] with string keys and values

    Insertion-ordered: assigning to a new key appends it, assigning to an
    existing key replaces the value in place. *)
Definition dict : Type := list (string * string).

Fixpoint dict_get (d : dict) (k : string) : option string :=
  match d with
  | [] => None
  | (k', v) :: d' => if bool_decide (k' = k) then Some v else dict_get d' k
  end.

(** [d[k] = v] *)
Fixpoint dict_set (d : dict) (k v : string) : dict :=
  match d with
  | [] => [(k, v)]
  | (k', v') :: d' =>
      if bool_decide (k' = k) then (k', v) :: d' else (k', v') :: dict_set d' k v
  end.

(** [enumerate(l)] *)
Definition enumerate {A : Type} (l : list A) : list (Z * A) :=
  imap (fun i x => (Z.of_nat i, x)) l.

(** *** The object and its methods *)

(** The two attributes of a [ParentChildIngester]. *)
Record ingester (C : Type) : Type := Ingester {
  parent_doc_store : dict;
  chroma_collection : C
}.
Arguments Ingester {C} _ _.
Arguments parent_doc_store {C} _.
Arguments chroma_collection {C} _.

(** A method call: from the object's state to what the call returns or
    raises and the state it leaves (mutations made before a [raise]
    stay). *)
Definition M (C A : Type) : Type := ingester C -> result A * ingester C.

Definition ret {C A : Type} (a : A) : M C A := fun s => (Ok a, s).

Definition bind {C A B : Type} (m : M C A) (f : A -> M C B) : M C B :=
  fun s => match m s with
           | (Ok a, s') => f a s'
           | (Raise e, s') => (Raise e, s')
           end.

Notation "'let*' x ':=' m 'in' k" := (bind m (fun x => k))
  (at level 10, x pattern, m at level 100, k at level 200).

Definition raise {C A : Type} (e : exn) : M C A := fun s => (Raise e, s).

(** The outcome of a pure call that may raise. *)
Definition lift {C A : Type} (r : result A) : M C A := fun s => (r, s).

(** Reading [self.parent_doc_store]. *)
Definition get_store {C : Type} : M C dict := fun s => (Ok (parent_doc_store s), s).

(** [self.parent_doc_store[k] = v] *)
Definition set_item {C : Type} (k v : string) : M C unit :=
  fun s => (Ok tt, Ingester (dict_set (parent_doc_store s) k v) (chroma_collection s)).

(** [for x in l: body(x)] *)
Fixpoint for_each {C A : Type} (l : list A) (body : A -> M C unit) : M C unit :=
  match l with
  | [] => ret tt
  | x :: l' => let* _ := body x in for_each l' body
  end.

Section Methods.
Variable sent_tokenize : string -> list string.
Variable word_tokenize : string -> list string.
(** [hashlib.sha256(b).hexdigest()] on the bytes [b]. *)
Variable sha256_hexdigest : list Byte.byte -> string.
Context {Embedding C : Type} `{!VectorIndex Embedding C}.
(** [ollama.embed(model, text)['embeddings']] *)
Variable ollama_embed : string -> string -> Embedding.

Abbreviation sentence_aware_splitter :=
  (Splitter.sentence_aware_splitter sent_tokenize word_tokenize).

(** [text.encode()]: a string of the model is the sequence of its UTF-8
    bytes. *)
Definition encode (text : string) : list Byte.byte := list_byte_of_string text.

(** [hashlib.sha256(text.encode()).hexdigest()] (lines 44 and 65). *)
Definition content_id (text : string) : string := sha256_hexdigest (encode text).

(** [self.chroma_collection.add(ids=.., embeddings=.., metadatas=.., documents=..)] *)
Definition add_to_collection (id : string) (emb : Embedding) (md : metadata) (doc : string)
  : M C unit :=
  fun s => (Ok tt, Ingester (parent_doc_store s)
                     (collection_add (chroma_collection s) id emb md doc)).

(** [self.chroma_collection.query(..., include=['metadatas'])['metadatas']] *)
Definition query_collection (emb : Embedding) (n_results : Z)
  : M C (option (list (list metadata))) :=
  fun s => (Ok (collection_query (chroma_collection s) emb n_results), s).

(** The body of the loop of [_ingest_parent_docs] (lines 44-45): the
    store's [put]. *)
Definition put (chunk : string) : M C string :=
  let parent_id := content_id chunk in
  let* _ := set_item parent_id chunk in
  ret parent_id.

(** Lines 33-45. *)
Definition _ingest_parent_docs (text : string) (parent_num_tokens parent_token_overlap : Z)
  : M C unit :=
  let* parent_chunks :=
    lift (sentence_aware_splitter text parent_num_tokens parent_token_overlap) in
  for_each parent_chunks (fun chunk => let* _ := put chunk in ret tt).

(** Lines 47-74. *)
Definition _ingest_child_docs (child_num_tokens child_token_overlap : Z)
    (embed_model_name : string) : M C unit :=
  let* store := get_store in
  if (length store =? 0)%nat then raise (ValueError "Parent Chunks were not created.")
  else
    for_each store (fun '(parent_id, parent_chunk) =>
      let* child_chunks :=
        lift (sentence_aware_splitter parent_chunk child_num_tokens child_token_overlap) in
      for_each (enumerate child_chunks) (fun '(i, child_chunk) =>
        let child_id := content_id child_chunk in
        let embeddings := ollama_embed embed_model_name child_chunk in
        add_to_collection child_id embeddings
          {[ "parent_id"%string := MStr parent_id; "chunk_index"%string := MInt i ]}
          child_chunk)).

(** Lines 91-96: the set of the [parent_id] values of the hits. *)
Definition collect_parent_ids (metadatas : option (list (list metadata))) : gset meta_value :=
  match metadatas with
  | None => ∅
  | Some lists =>
      foldl (fun ids metadata_lists =>
               foldl (fun ids (md : metadata) =>
                        match md !! "parent_id"%string with
                        | Some v => ids ∪ {[ v ]}
                        | None => ids
                        end) ids metadata_lists) ∅ lists
  end.

(** [parent_id in self.parent_doc_store] and the lookup: the keys of the
    store are strings. *)
Definition store_find (store : dict) (v : meta_value) : option string :=
  match v with
  | MStr k => dict_get store k
  | MInt _ => None
  end.

(** Lines 99-102.  A Python set is iterated in an order of its own; the
    model iterates in the order of [elements]. *)
Definition lookup_parents (store : dict) (ids : list meta_value) : list string :=
  foldl (fun docs parent_id =>
           match store_find store parent_id with
           | Some doc => docs ++ [doc]
           | None => docs
           end) [] ids.

(** Lines 76-104. *)
Definition _retrieve_docs (query embed_model_name : string) (n_results : Z)
  : M C (list string) :=
  let query_embeddings := ollama_embed embed_model_name query in
  let* metadatas := query_collection query_embeddings n_results in
  let retrieved_parent_ids := collect_parent_ids metadatas in
  let* store := get_store in
  ret (lookup_parents store (elements retrieved_parent_ids)).

(** *** Specification-level views of the loops *)

(** The store after the loop of [_ingest_parent_docs] over [chunks]. *)
Definition put_all (store : dict) (chunks : list string) : dict :=
  foldl (fun d chunk => dict_set d (content_id chunk) chunk) store chunks.

(** The entries written for the children of one parent, in order. *)
Definition child_writes (parent_id : string) (child_chunks : list string)
    (embed_model_name : string) : list (string * index_entry Embedding) :=
  map (fun '(i, child_chunk) =>
         (content_id child_chunk,
          IndexEntry (ollama_embed embed_model_name child_chunk)
            {[ "parent_id"%string := MStr parent_id; "chunk_index"%string := MInt i ]}
            child_chunk))
      (enumerate child_chunks).

(** The entries written by a child ingestion with valid parameters. *)
Definition all_child_writes (store : dict) (child_num_tokens child_token_overlap : Z)
    (embed_model_name : string) : list (string * index_entry Embedding) :=
  concat (map (fun '(parent_id, parent_chunk) =>
                 child_writes parent_id
                   (map Splitter.chunk_text
                      (Splitter.splitter_trace sent_tokenize word_tokenize parent_chunk
                         child_num_tokens child_token_overlap))
                   embed_model_name) store).

Definition apply_writes (c : C) (ws : list (string * index_entry Embedding)) : C :=
  foldl (fun c '(id, e) => collection_add c id (e_embedding e) (e_metadata e) (e_document e))
        c ws.

(** Every key of the store is the digest of the text under it. *)
Definition keys_are_digests (store : dict) : Prop :=
  forall k t, dict_get store k = Some t -> k = content_id t.

(** The states an object goes through: created with an empty store, then
    any sequence of calls of the three methods. *)
Inductive reachable : ingester C -> Prop :=
| reach_init c : reachable (Ingester [] c)
| reach_parent s text n o :
    reachable s -> reachable (snd (_ingest_parent_docs text n o s))
| reach_child s n o model :
    reachable s -> reachable (snd (_ingest_child_docs n o model s))
| reach_retrieve s q model k :
    reachable s -> reachable (snd (_retrieve_docs q model k s)).

(** *** The dictionary *)

Lemma dict_get_set_eq d k v : dict_get (dict_set d k v) k = Some v.
Proof.
  induction d as [| [k' v'] d IH]; simpl.
  - now rewrite bool_decide_eq_true_2.
  - case_bool_decide as E; simpl.
    + now rewrite bool_decide_eq_true_2.
    + now rewrite bool_decide_eq_false_2.
Qed.

Lemma dict_get_set_ne d k k' v : k <> k' -> dict_get (dict_set d k v) k' = dict_get d k'.
Proof.
  intros Hne. induction d as [| [k0 v0] d IH]; simpl.
  - now rewrite bool_decide_eq_false_2.
  - case_bool_decide as E; simpl.
    + subst k0. now rewrite !bool_decide_eq_false_2.
    + now rewrite IH.
Qed.

Lemma dict_set_same d k v : dict_get d k = Some v -> dict_set d k v = d.
Proof.
  induction d as [| [k0 v0] d IH]; simpl; [discriminate |].
  case_bool_decide as E.
  - intros [= ->]. reflexivity.
  - intros H. now rewrite IH.
Qed.

Lemma dict_set_set d k v : dict_set (dict_set d k v) k v = dict_set d k v.
Proof. apply dict_set_same, dict_get_set_eq. Qed.

(** *** Parent ingestion *)

Lemma parent_loop chunks (s : ingester C) :
  for_each chunks (fun chunk => let* _ := put chunk in ret tt) s =
  (Ok tt, Ingester (put_all (parent_doc_store s) chunks) (chroma_collection s)).
Proof.
  revert s. induction chunks as [| c chunks IH]; intros s.
  - now destruct s.
  - simpl. unfold bind at 1. simpl. rewrite IH. reflexivity.
Qed.

Lemma ingest_parent_run text n o (s : ingester C) :
  _ingest_parent_docs text n o s =
  match sentence_aware_splitter text n o with
  | Ok chunks =>
      (Ok tt, Ingester (put_all (parent_doc_store s) chunks) (chroma_collection s))
  | Raise e => (Raise e, s)
  end.
Proof.
  unfold _ingest_parent_docs, bind, lift.
  destruct (sentence_aware_splitter text n o); [apply parent_loop | reflexivity].
Qed.

Lemma put_all_digests store chunks :
  keys_are_digests store -> keys_are_digests (put_all store chunks).
Proof.
  revert store. induction chunks as [| c chunks IH]; intros store Hinv; [exact Hinv |].
  apply IH. intros k t Hk.
  destruct (decide (content_id c = k)) as [<- | Hne].
  - rewrite dict_get_set_eq in Hk. now inversion Hk.
  - rewrite dict_get_set_ne in Hk by exact Hne. now apply Hinv.
Qed.

(** A binding survives the loop when no chunk written has the same
    digest as, and differs from, the text bound. *)
Lemma put_all_keeps store chunks k t :
  dict_get store k = Some t ->
  (forall chunk, chunk ∈ chunks -> content_id chunk = k -> chunk = t) ->
  dict_get (put_all store chunks) k = Some t.
Proof.
  revert store. induction chunks as [| c chunks IH]; intros store Hk Hfree; [exact Hk |].
  apply IH.
  - destruct (decide (content_id c = k)) as [E | Hne].
    + assert (Hc : c = t) by (apply Hfree; [left | exact E]).
      rewrite E, Hc. apply dict_get_set_eq.
    + now rewrite dict_get_set_ne.
  - intros chunk Hin. apply Hfree. now right.
Qed.

Lemma put_all_keeps_key store chunks k :
  is_Some (dict_get store k) -> is_Some (dict_get (put_all store chunks) k).
Proof.
  revert store. induction chunks as [| c chunks IH]; intros store Hk; [exact Hk |].
  apply IH. destruct (decide (content_id c = k)) as [<- | Hne].
  - rewrite dict_get_set_eq. eauto.
  - now rewrite dict_get_set_ne.
Qed.

(** *** Child ingestion *)

Lemma apply_writes_app c ws1 ws2 :
  apply_writes c (ws1 ++ ws2) = apply_writes (apply_writes c ws1) ws2.
Proof. unfold apply_writes. apply foldl_app. Qed.

Lemma child_inner_loop parent_id model (l : list (Z * string)) (s : ingester C) :
  for_each l (fun '(i, child_chunk) =>
      let child_id := content_id child_chunk in
      let embeddings := ollama_embed model child_chunk in
      add_to_collection child_id embeddings
        {[ "parent_id"%string := MStr parent_id; "chunk_index"%string := MInt i ]}
        child_chunk) s =
  (Ok tt, Ingester (parent_doc_store s)
            (apply_writes (chroma_collection s)
               (map (fun '(i, child_chunk) =>
                       (content_id child_chunk,
                        IndexEntry (ollama_embed model child_chunk)
                          {[ "parent_id"%string := MStr parent_id;
                             "chunk_index"%string := MInt i ]}
                          child_chunk)) l))).
Proof.
  revert s. induction l as [| [i c] l IH]; intros s.
  - now destruct s.
  - simpl. unfold bind at 1. simpl. rewrite IH. reflexivity.
Qed.

Lemma child_outer_loop items n o model (s : ingester C) :
  o < n ->
  for_each items (fun '(parent_id, parent_chunk) =>
      let* child_chunks := lift (sentence_aware_splitter parent_chunk n o) in
      for_each (enumerate child_chunks) (fun '(i, child_chunk) =>
        let child_id := content_id child_chunk in
        let embeddings := ollama_embed model child_chunk in
        add_to_collection child_id embeddings
          {[ "parent_id"%string := MStr parent_id; "chunk_index"%string := MInt i ]}
          child_chunk)) s =
  (Ok tt, Ingester (parent_doc_store s)
            (apply_writes (chroma_collection s) (all_child_writes items n o model))).
Proof.
  intros Hvalid. revert s. induction items as [| [pid chunk] items IH]; intros s.
  - now destruct s.
  - simpl. unfold bind at 1, bind at 1, lift.
    rewrite Splitter.splitter_returns by exact Hvalid.
    rewrite child_inner_loop, IH. simpl.
    unfold all_child_writes. simpl. now rewrite apply_writes_app.
Qed.

Lemma child_outer_loop_invalid item items n o model (s : ingester C) :
  n <= o ->
  for_each (item :: items) (fun '(parent_id, parent_chunk) =>
      let* child_chunks := lift (sentence_aware_splitter parent_chunk n o) in
      for_each (enumerate child_chunks) (fun '(i, child_chunk) =>
        let child_id := content_id child_chunk in
        let embeddings := ollama_embed model child_chunk in
        add_to_collection child_id embeddings
          {[ "parent_id"%string := MStr parent_id; "chunk_index"%string := MInt i ]}
          child_chunk)) s =
  (Raise (ValueError "num_tokens must be greater than token_overlap"), s).
Proof.
  intros Hbad. destruct item as [pid chunk]. simpl.
  unfold bind at 1, bind at 1, lift.
  now rewrite Splitter.splitter_raises by exact Hbad.
Qed.

(** What a call of [_ingest_child_docs] does, case by case. *)
Lemma ingest_child_run n o model (s : ingester C) :
  _ingest_child_docs n o model s =
  if (length (parent_doc_store s) =? 0)%nat then
    (Raise (ValueError "Parent Chunks were not created."), s)
  else if n <=? o then
    (Raise (ValueError "num_tokens must be greater than token_overlap"), s)
  else
    (Ok tt, Ingester (parent_doc_store s)
              (apply_writes (chroma_collection s)
                 (all_child_writes (parent_doc_store s) n o model))).
Proof.
  unfold _ingest_child_docs, bind at 1, get_store.
  destruct (length (parent_doc_store s) =? 0)%nat eqn:El; [reflexivity |].
  destruct (n <=? o) eqn:Ev.
  - destruct (parent_doc_store s) as [| item items]; [discriminate |].
    apply child_outer_loop_invalid. now apply Z.leb_le.
  - apply child_outer_loop. now apply Z.leb_gt.
Qed.

Lemma ingest_child_store n o model (s : ingester C) :
  parent_doc_store (snd (_ingest_child_docs n o model s)) = parent_doc_store s.
Proof.
  rewrite ingest_child_run.
  destruct (length (parent_doc_store s) =? 0)%nat; [reflexivity |].
  destruct (n <=? o); reflexivity.
Qed.

(** *** Writes under upsert semantics *)

Definition insert_all (m : gmap string (index_entry Embedding))
    (ws : list (string * index_entry Embedding)) : gmap string (index_entry Embedding) :=
  foldl (fun m '(id, e) => <[id := e]> m) m ws.

Lemma entries_apply_writes c ws :
  upsert_by_id ->
  collection_entries (apply_writes c ws) = insert_all (collection_entries c) ws.
Proof.
  intros Hup. revert c. induction ws as [| [id e] ws IH]; intros c; [reflexivity |].
  simpl. rewrite IH, Hup. now destruct e.
Qed.

Lemma insert_all_union m ws : insert_all m ws = insert_all ∅ ws ∪ m.
Proof.
  revert m. induction ws as [| [id e] ws IH]; intros m; simpl.
  - now rewrite (left_id_L ∅ (∪)).
  - rewrite (IH (<[id:=e]> m)), (IH (<[id:=e]> ∅)).
    rewrite <- (assoc_L (∪)). f_equal.
    now rewrite <- insert_union_l, (left_id_L ∅ (∪)).
Qed.

Lemma insert_all_twice m ws : insert_all (insert_all m ws) ws = insert_all m ws.
Proof.
  rewrite (insert_all_union (insert_all m ws)), (insert_all_union m).
  now rewrite (assoc_L (∪)), (idemp_L (∪)).
Qed.

(** *** Retrieval *)

Lemma collect_inner (ids : gset meta_value) (l : list metadata) v :
  v ∈ foldl (fun ids (md : metadata) =>
               match md !! "parent_id"%string with
               | Some v => ids ∪ {[ v ]}
               | None => ids
               end) ids l <->
  v ∈ ids \/ exists md, md ∈ l /\ md !! "parent_id"%string = Some v.
Proof.
  revert ids. induction l as [| md l IH]; intros ids; simpl.
  - split; [auto | intros [H | (md & H & _)]; [exact H | inversion H]].
  - rewrite IH. destruct (md !! "parent_id"%string) as [w |] eqn:E.
    + rewrite elem_of_union, elem_of_singleton. split.
      * intros [[H | ->] | (md' & H1 & H2)]; [auto | right; exists md | right; exists md'];
          (split; [| assumption]); [left | now right].
      * intros [H | (md' & H1 & H2)]; [auto |].
        apply elem_of_cons in H1 as [-> | H1]; [left; right; congruence | right; eauto].
    + split.
      * intros [H | (md' & H1 & H2)]; [auto | right; exists md'; split; [now right | auto]].
      * intros [H | (md' & H1 & H2)]; [auto |].
        apply elem_of_cons in H1 as [-> | H1]; [congruence | right; eauto].
Qed.

Lemma collect_inner_size (ids : gset meta_value) (l : list metadata) :
  (size (foldl (fun ids (md : metadata) =>
               match md !! "parent_id"%string with
               | Some v => ids ∪ {[ v ]}
               | None => ids
               end) ids l) <= size ids + length l)%nat.
Proof.
  revert ids. induction l as [| md l IH]; intros ids; simpl; [lia |].
  etransitivity; [apply IH |].
  destruct (md !! "parent_id"%string) as [w |]; [| lia].
  pose proof (size_union_alt ids {[ w ]}) as Hs.
  assert (size ({[w]} ∖ ids : gset meta_value) <= 1)%nat.
  { rewrite <- (size_singleton (C:=gset meta_value) w).
    apply subseteq_size, subseteq_difference_l. reflexivity. }
  lia.
Qed.

Lemma collect_parent_ids_spec lists v :
  v ∈ collect_parent_ids (Some lists) <->
  exists md, md ∈ concat lists /\ md !! "parent_id"%string = Some v.
Proof.
  unfold collect_parent_ids.
  enough (G : forall ids : gset meta_value,
    v ∈ foldl (fun ids metadata_lists =>
               foldl (fun ids (md : metadata) =>
                        match md !! "parent_id"%string with
                        | Some v => ids ∪ {[ v ]}
                        | None => ids
                        end) ids metadata_lists) ids lists <->
    v ∈ ids \/ exists md, md ∈ concat lists /\ md !! "parent_id"%string = Some v).
  { rewrite G. split; [intros [H | H]; [set_solver | exact H] | auto]. }
  induction lists as [| l lists IH]; intros ids; simpl.
  - split; [auto | intros [H | (md & H & _)]; [exact H | inversion H]].
  - rewrite IH, collect_inner. split.
    + intros [[H | (md & H1 & H2)] | (md & H1 & H2)]; [auto | |];
        right; exists md; (split; [| assumption]); apply elem_of_app; auto.
    + intros [H | (md & H1 & H2)]; [auto |].
      apply elem_of_app in H1 as [H1 | H1]; [left; right | right]; eauto.
Qed.

Lemma collect_parent_ids_size lists :
  (size (collect_parent_ids (Some lists)) <= length (concat lists))%nat.
Proof.
  unfold collect_parent_ids.
  enough (G : forall ids : gset meta_value,
    (size (foldl (fun ids metadata_lists =>
               foldl (fun ids (md : metadata) =>
                        match md !! "parent_id"%string with
                        | Some v => ids ∪ {[ v ]}
                        | None => ids
                        end) ids metadata_lists) ids lists)
     <= size ids + length (concat lists))%nat).
  { specialize (G ∅). now rewrite size_empty in G. }
  induction lists as [| l lists IH]; intros ids; simpl; [lia |].
  etransitivity; [apply IH |]. rewrite length_app.
  pose proof (collect_inner_size ids l). lia.
Qed.

Lemma lookup_parents_omap store ids :
  lookup_parents store ids = omap (store_find store) ids.
Proof.
  unfold lookup_parents.
  enough (G : forall docs,
    foldl (fun docs parent_id =>
             match store_find store parent_id with
             | Some doc => docs ++ [doc]
             | None => docs
             end) docs ids = docs ++ omap (store_find store) ids) by apply G.
  induction ids as [| v ids IH]; intros docs; simpl.
  - now rewrite app_nil_r.
  - rewrite IH. destruct (store_find store v); [now rewrite <- app_assoc | reflexivity].
Qed.

Lemma store_find_digest store v t :
  keys_are_digests store -> store_find store v = Some t -> v = MStr (content_id t).
Proof.
  intros Hinv. destruct v as [k | n]; simpl; [| discriminate].
  intros H. now rewrite (Hinv k t H).
Qed.

Lemma lookup_parents_NoDup store ids :
  keys_are_digests store -> NoDup ids -> NoDup (lookup_parents store ids).
Proof.
  intros Hinv Hnd. rewrite lookup_parents_omap.
  induction Hnd as [| v ids Hnotin Hnd IH]; simpl; [constructor |].
  destruct (store_find store v) as [t |] eqn:E; [| exact IH].
  constructor; [| exact IH].
  rewrite list_elem_of_omap. intros (w & Hw & Ew).
  apply (store_find_digest _ _ _ Hinv) in E, Ew. congruence.
Qed.

Lemma retrieve_run q model k (s : ingester C) :
  _retrieve_docs q model k s =
  (Ok (lookup_parents (parent_doc_store s)
         (elements (collect_parent_ids
                      (collection_query (chroma_collection s) (ollama_embed model q) k)))),
   s).
Proof. reflexivity. Qed.

(** The hits of a query, flattened. *)
Definition hits_of (metadatas : option (list (list metadata))) : list metadata :=
  match metadatas with
  | Some lists => concat lists
  | None => []
  end.

Lemma collect_parent_ids_hits metadatas v :
  v ∈ collect_parent_ids metadatas <->
  exists md, md ∈ hits_of metadatas /\ md !! "parent_id"%string = Some v.
Proof.
  destruct metadatas as [lists |]; [apply collect_parent_ids_spec |].
  simpl. split; [set_solver | intros (md & H & _); inversion H].
Qed.

Lemma collect_parent_ids_hits_size metadatas :
  (size (collect_parent_ids metadatas) <= length (hits_of metadatas))%nat.
Proof.
  destruct metadatas as [lists |]; [apply collect_parent_ids_size |].
  reflexivity.
Qed.

Lemma length_omap_le {A B : Type} (f : A -> option B) (l : list A) :
  (length (omap f l) <= length l)%nat.
Proof.
  induction l as [| x l IH]; simpl; [lia |].
  destruct (f x); simpl; [apply le_n_S | apply le_S]; exact IH.
Qed.

Lemma all_child_writes_ids store n o model id e :
  (id, e) ∈ all_child_writes store n o model -> id = content_id (e_document e).
Proof.
  unfold all_child_writes. rewrite list_elem_of_In, in_concat.
  intros (ws & Hws & Hin). apply in_map_iff in Hws as ([pid chunk] & <- & _).
  unfold child_writes in Hin. apply in_map_iff in Hin as ([i c] & E & _).
  now inversion E.
Qed.

Lemma reachable_digests s : reachable s -> keys_are_digests (parent_doc_store s).
Proof.
  induction 1 as [c | s text n o Hr IH | s n o model Hr IH | s q model k Hr IH].
  - intros k t H. discriminate.
  - rewrite ingest_parent_run.
    destruct (sentence_aware_splitter text n o); simpl; [now apply put_all_digests | exact IH].
  - now rewrite ingest_child_store.
  - exact IH.
Qed.

(** *** Properties of the methods *)

(** C5. With an index that replaces on an existing id, a second child
    ingestion over the same parent store, with the same parameters and
    embedding function, leaves the index with the entries the first one
    left, returns what the first returned and keeps the store; the ids
    written are the digests of the child texts. *)
Theorem child_ingestion_idempotent n o model (s : ingester C) :
  upsert_by_id ->
  let r1 := _ingest_child_docs n o model s in
  let r2 := _ingest_child_docs n o model (snd r1) in
  collection_entries (chroma_collection (snd r2)) =
    collection_entries (chroma_collection (snd r1)) /\
  parent_doc_store (snd r2) = parent_doc_store (snd r1) /\
  parent_doc_store (snd r1) = parent_doc_store s /\
  fst r2 = fst r1 /\
  (o < n -> parent_doc_store s <> [] ->
   fst r1 = Ok tt /\
   collection_entries (chroma_collection (snd r1)) =
     insert_all (collection_entries (chroma_collection s))
       (all_child_writes (parent_doc_store s) n o model) /\
   forall id e, (id, e) ∈ all_child_writes (parent_doc_store s) n o model ->
                id = content_id (e_document e)).
Proof.
  intros Hup r1 r2. subst r2 r1. rewrite !ingest_child_run.
  destruct (length (parent_doc_store s) =? 0)%nat eqn:El; simpl.
  { rewrite El. simpl. do 4 (split; [reflexivity |]).
    intros _ Hne. destruct (parent_doc_store s); [congruence | discriminate]. }
  destruct (n <=? o) eqn:Ev; simpl.
  { rewrite El. simpl. do 4 (split; [reflexivity |]).
    intros Hv _. apply Z.leb_le in Ev. lia. }
  rewrite El. simpl.
  rewrite !(entries_apply_writes _ _ Hup), insert_all_twice.
  do 4 (split; [reflexivity |]). intros _ _.
  do 2 (split; [reflexivity |]). intros id e. apply all_child_writes_ids.
Qed.

(** The same holds for an index whose [add] keeps the entry of an id
    that is already present and ignores the new one. *)
Definition keep_existing_id : Prop :=
  forall (c : C) id emb md doc,
    collection_entries (collection_add c id emb md doc) =
    match collection_entries c !! id with
    | Some _ => collection_entries c
    | None => <[id := IndexEntry emb md doc]> (collection_entries c)
    end.

Definition keep_all (m : gmap string (index_entry Embedding))
    (ws : list (string * index_entry Embedding)) : gmap string (index_entry Embedding) :=
  foldl (fun m '(id, e) => match m !! id with Some _ => m | None => <[id := e]> m end) m ws.

Lemma entries_apply_writes_keep c ws :
  keep_existing_id ->
  collection_entries (apply_writes c ws) = keep_all (collection_entries c) ws.
Proof.
  intros Hkeep. revert c. induction ws as [| [id e] ws IH]; intros c; [reflexivity |].
  simpl. rewrite IH, Hkeep. now destruct e.
Qed.

Lemma keep_all_present m ws id :
  is_Some (m !! id) -> keep_all m ws !! id = m !! id.
Proof.
  revert m. induction ws as [| [id' e'] ws IH]; intros m Hid; [reflexivity |].
  simpl. destruct (m !! id') eqn:E; [now apply IH |].
  assert (id' <> id) by (intros ->; rewrite E in Hid; now destruct Hid).
  rewrite IH; rewrite lookup_insert_ne by assumption; auto.
Qed.

Lemma keep_all_covers m ws id e :
  (id, e) ∈ ws -> is_Some (keep_all m ws !! id).
Proof.
  revert m. induction ws as [| [id' e'] ws IH]; intros m Hin; [inversion Hin |].
  apply elem_of_cons in Hin as [[= <- <-] | Hin]; [| now apply IH].
  simpl. destruct (m !! id) eqn:E.
  - rewrite keep_all_present; rewrite E; eauto.
  - rewrite keep_all_present; rewrite lookup_insert_eq; eauto.
Qed.

Lemma keep_all_noop m ws :
  (forall id e, (id, e) ∈ ws -> is_Some (m !! id)) -> keep_all m ws = m.
Proof.
  revert m. induction ws as [| [id e] ws IH]; intros m Hall; [reflexivity |].
  simpl. destruct (Hall id e ltac:(left)) as [x ->].
  apply IH. intros id' e' Hin. apply (Hall id' e'). now right.
Qed.

Lemma keep_all_twice m ws : keep_all (keep_all m ws) ws = keep_all m ws.
Proof. apply keep_all_noop. intros id e. apply keep_all_covers. Qed.

Lemma keep_existing_child_ingestion_twice n o model (s : ingester C) :
  keep_existing_id ->
  let r1 := _ingest_child_docs n o model s in
  let r2 := _ingest_child_docs n o model (snd r1) in
  collection_entries (chroma_collection (snd r2)) =
    collection_entries (chroma_collection (snd r1)).
Proof.
  intros Hkeep r1 r2. subst r2 r1. rewrite !ingest_child_run.
  destruct (length (parent_doc_store s) =? 0)%nat eqn:El; simpl;
    [now rewrite El |].
  destruct (n <=? o) eqn:Ev; simpl; rewrite El; simpl; [reflexivity |].
  now rewrite !(entries_apply_writes_keep _ _ Hkeep), keep_all_twice.
Qed.

(** C6. For a reachable object, the texts returned by [_retrieve_docs]
    are without repetition: the text of a parent id carried by one or
    more hits and present in the store occurs exactly once; every text
    returned is the stored text of an id carried by a hit, ids absent
    from the store contribute nothing and raise nothing, and there are
    at most as many texts as hits. *)
Theorem retrieve_dedup q model k (s : ingester C) :
  reachable s ->
  let hits := hits_of (collection_query (chroma_collection s) (ollama_embed model q) k) in
  exists docs,
    _retrieve_docs q model k s = (Ok docs, s) /\
    (forall p t, (exists md, md ∈ hits /\ md !! "parent_id"%string = Some (MStr p)) ->
                 dict_get (parent_doc_store s) p = Some t ->
                 count_occ String.string_dec docs t = 1%nat) /\
    (forall t, t ∈ docs ->
               exists p md, md ∈ hits /\ md !! "parent_id"%string = Some (MStr p) /\
                            dict_get (parent_doc_store s) p = Some t) /\
    NoDup docs /\
    (length docs <= length hits)%nat.
Proof.
  intros Hr hits. pose proof (reachable_digests s Hr) as Hinv.
  set (ids := collect_parent_ids
                (collection_query (chroma_collection s) (ollama_embed model q) k)).
  exists (lookup_parents (parent_doc_store s) (elements ids)).
  assert (Hnd : NoDup (lookup_parents (parent_doc_store s) (elements ids)))
    by (apply lookup_parents_NoDup; [exact Hinv | apply NoDup_elements]).
  split; [apply retrieve_run |]. split; [| split; [| split; [exact Hnd |]]].
  - intros p t Hhit Hp.
    apply (proj1 (NoDup_count_occ' String.string_dec _)); [now apply NoDup_ListNoDup |].
    apply list_elem_of_In. rewrite lookup_parents_omap, list_elem_of_omap.
    exists (MStr p). split; [| exact Hp].
    apply elem_of_elements, collect_parent_ids_hits. exact Hhit.
  - intros t Ht. rewrite lookup_parents_omap, list_elem_of_omap in Ht.
    destruct Ht as (v & Hv & Hf). apply elem_of_elements, collect_parent_ids_hits in Hv.
    destruct Hv as (md & Hmd & Hpid). destruct v as [p | z]; [| discriminate].
    exists p, md. auto.
  - rewrite lookup_parents_omap.
    etransitivity; [apply length_omap_le |].
    apply (collect_parent_ids_hits_size
             (collection_query (chroma_collection s) (ollama_embed model q) k)).
Qed.

(** C7. With an empty parent store, [_ingest_child_docs] raises
    [ValueError('Parent Chunks were not created.')] and leaves the
    object, its index included, as it was. *)
Theorem child_ingestion_requires_parents n o model (s : ingester C) :
  parent_doc_store s = [] ->
  _ingest_child_docs n o model s =
    (Raise (ValueError "Parent Chunks were not created."), s) /\
  collection_entries (chroma_collection (snd (_ingest_child_docs n o model s))) =
    collection_entries (chroma_collection s).
Proof.
  intros Hempty. rewrite ingest_child_run, Hempty. simpl. auto.
Qed.

(** C8. Storing a text twice: both times the id is the digest of the
    text, and the second store leaves the object, hence the content and
    the size of the parent store, as the first left it. *)
Theorem put_idempotent chunk (s : ingester C) :
  let r1 := put chunk s in
  let r2 := put chunk (snd r1) in
  fst r1 = Ok (sha256_hexdigest (encode chunk)) /\
  fst r2 = Ok (sha256_hexdigest (encode chunk)) /\
  snd r2 = snd r1 /\
  parent_doc_store (snd r2) = parent_doc_store (snd r1) /\
  length (parent_doc_store (snd r2)) = length (parent_doc_store (snd r1)) /\
  dict_get (parent_doc_store (snd r1)) (sha256_hexdigest (encode chunk)) = Some chunk.
Proof.
  intros r1 r2. subst r2 r1. unfold put, bind, set_item, ret. simpl.
  fold (content_id chunk). rewrite dict_set_set.
  repeat split; try reflexivity. apply dict_get_set_eq.
Qed.

(** C9. In every reachable state each key of the parent store is the
    SHA-256 hex digest of the bytes of the text under it.  A call of
    [_ingest_parent_docs] keeps every key, bound to a text of that
    digest, and keeps the text itself when no chunk it stores has the
    digest of the text without being the text; the two other methods
    leave the store as it is. *)
Theorem parent_store_content_addressed (s : ingester C) :
  reachable s ->
  (forall k t, dict_get (parent_doc_store s) k = Some t ->
               k = sha256_hexdigest (encode t)) /\
  (forall text n o k t,
      dict_get (parent_doc_store s) k = Some t ->
      let s' := snd (_ingest_parent_docs text n o s) in
      (exists t', dict_get (parent_doc_store s') k = Some t' /\
                  sha256_hexdigest (encode t') = k) /\
      ((forall chunks chunk,
           sentence_aware_splitter text n o = Ok chunks -> chunk ∈ chunks ->
           sha256_hexdigest (encode chunk) = sha256_hexdigest (encode t) -> chunk = t) ->
       dict_get (parent_doc_store s') k = Some t)) /\
  (forall n o model,
      parent_doc_store (snd (_ingest_child_docs n o model s)) = parent_doc_store s) /\
  (forall q model k,
      parent_doc_store (snd (_retrieve_docs q model k s)) = parent_doc_store s).
Proof.
  intros Hr. pose proof (reachable_digests s Hr) as Hinv.
  split; [exact Hinv |]. split; [| split; [intros; apply ingest_child_store | reflexivity]].
  intros text n o k t Hk s'.
  pose proof (reachable_digests _ (reach_parent s text n o Hr)) as Hinv'.
  fold s' in Hinv'. split.
  - assert (Hsome : is_Some (dict_get (parent_doc_store s') k)).
    { subst s'. rewrite ingest_parent_run.
      destruct (sentence_aware_splitter text n o); simpl; [| eauto].
      apply put_all_keeps_key. eauto. }
    destruct Hsome as [t' Ht']. exists t'. split; [exact Ht' |].
    symmetry. apply (Hinv' k t' Ht').
  - intros Hfree. subst s'. rewrite ingest_parent_run.
    destruct (sentence_aware_splitter text n o) as [chunks | e] eqn:E; simpl; [| exact Hk].
    apply put_all_keeps; [exact Hk |].
    intros chunk Hin Hid. apply (Hfree chunks chunk eq_refl Hin).
    unfold content_id in Hid. rewrite Hid. apply (Hinv k t Hk).
Qed.

(** C10. [_ingest_child_docs] leaves the parent store as it is, and
    [_retrieve_docs] leaves the whole object, store and index, as it
    is. *)
Theorem child_ingestion_and_retrieval_frame n o model q k (s : ingester C) :
  parent_doc_store (snd (_ingest_child_docs n o model s)) = parent_doc_store s /\
  snd (_retrieve_docs q model k s) = s /\
  parent_doc_store (snd (_retrieve_docs q model k s)) = parent_doc_store s /\
  chroma_collection (snd (_retrieve_docs q model k s)) = chroma_collection s.
Proof.
  split; [apply ingest_child_store |]. rewrite retrieve_run. simpl. auto.
Qed.

End Methods.

(** *** A concrete object

    Stand-ins for the external parts, to run the methods: an index that
    keeps its entries in a map, replaces on [add] and answers a query
    with the metadata of its first [n_results] entries; an embedding that
    is the length of the text; a digest that is the text itself. *)

Abbreviation map_collection := (gmap string (index_entry (list Z))).

#[export] Instance map_index : VectorIndex (list Z) map_collection := {|
  collection_add c id emb md doc := <[id := IndexEntry emb md doc]> c;
  collection_query c emb n_results :=
    Some [take (Z.to_nat n_results) (map (fun kv => e_metadata (snd kv)) (map_to_list c))];
  collection_entries c := c
|}.

Definition length_embed (model text : string) : list Z := [Z.of_nat (String.length text)].

Definition text_digest (b : list Byte.byte) : string := string_of_list_byte b.

Abbreviation demo_ingest_parents :=
  (_ingest_parent_docs SimpleTokenizers.sent_tokenize SimpleTokenizers.word_tokenize
     text_digest).
Abbreviation demo_ingest_children :=
  (_ingest_child_docs SimpleTokenizers.sent_tokenize SimpleTokenizers.word_tokenize
     text_digest length_embed).
Abbreviation demo_retrieve := (_retrieve_docs length_embed).
Abbreviation demo_reachable :=
  (reachable SimpleTokenizers.sent_tokenize SimpleTokenizers.word_tokenize
     text_digest length_embed).

Definition demo_text : string := "Cats purr. Dogs bark. Birds sing.".
Definition demo_text_longer : string := "Cats purr. Dogs bark. Birds sing. Fish swim.".

(** A new object. *)
Definition demo_new : ingester map_collection := Ingester [] ∅.

(** After ingesting three sentences as one parent of nine tokens. *)
Definition demo_parents : ingester map_collection :=
  snd (demo_ingest_parents demo_text 10 3 demo_new).

(** After splitting that parent into three children of three tokens. *)
Definition demo_children : ingester map_collection :=
  snd (demo_ingest_children 3 0 "model" demo_parents).

Lemma map_index_upsert : upsert_by_id (VectorIndex0 := map_index).
Proof. intros c id emb md doc. reflexivity. Qed.

Lemma demo_parents_reachable : demo_reachable demo_parents.
Proof. apply reach_parent, reach_init. Qed.

Lemma demo_children_reachable : demo_reachable demo_children.
Proof. apply reach_child, demo_parents_reachable. Qed.

Lemma child_ingestion_idempotent_witness :
  upsert_by_id (VectorIndex0 := map_index) /\
  collection_entries
    (chroma_collection (snd (demo_ingest_children 3 0 "model" demo_children))) =
  collection_entries (chroma_collection demo_children).
Proof.
  split; [exact map_index_upsert |].
  exact (proj1 (child_ingestion_idempotent SimpleTokenizers.sent_tokenize
                  SimpleTokenizers.word_tokenize text_digest length_embed
                  3 0 "model" demo_parents map_index_upsert)).
Defined.

Lemma retrieve_dedup_witness :
  demo_reachable demo_children /\
  exists docs, demo_retrieve "query" "model" 3 demo_children = (Ok docs, demo_children) /\
    count_occ String.string_dec docs demo_text = 1%nat /\
    (length docs <= 3)%nat.
Proof.
  split; [exact demo_children_reachable |].
  destruct (retrieve_dedup SimpleTokenizers.sent_tokenize SimpleTokenizers.word_tokenize
              text_digest length_embed "query" "model" 3 demo_children
              demo_children_reachable)
    as (docs & Hrun & Honce & _ & _ & Hlen).
  exists docs. split; [exact Hrun |]. split.
  - apply (Honce demo_text).
    + eexists. split.
      * apply (list_elem_of_lookup_2 _ 0%nat). vm_compute. reflexivity.
      * vm_compute. reflexivity.
    + vm_compute. reflexivity.
  - etransitivity; [exact Hlen |]. vm_compute. lia.
Defined.

(** Three hits of one parent: one text is returned for [n_results = 3]. *)
Example retrieve_three_hits_one_parent :
  demo_retrieve "query" "model" 3 demo_children = (Ok [demo_text], demo_children) /\
  length (hits_of (collection_query (chroma_collection demo_children)
                     (length_embed "model" "query") 3)) = 3%nat.
Proof. split; vm_compute; reflexivity. Qed.

Lemma child_ingestion_requires_parents_witness :
  parent_doc_store demo_new = [] /\
  demo_ingest_children 128 16 "model" demo_new =
    (Raise (ValueError "Parent Chunks were not created."), demo_new).
Proof.
  split; [reflexivity |].
  exact (proj1 (child_ingestion_requires_parents SimpleTokenizers.sent_tokenize
                  SimpleTokenizers.word_tokenize text_digest length_embed
                  128 16 "model" demo_new eq_refl)).
Defined.

Lemma parent_store_content_addressed_witness :
  demo_reachable demo_parents /\
  dict_get (parent_doc_store demo_parents) demo_text = Some demo_text /\
  demo_text = text_digest (encode demo_text) /\
  dict_get (parent_doc_store (snd (demo_ingest_parents demo_text_longer 10 3 demo_parents)))
    demo_text = Some demo_text.
Proof.
  assert (Hk : dict_get (parent_doc_store demo_parents) demo_text = Some demo_text)
    by (vm_compute; reflexivity).
  destruct (parent_store_content_addressed SimpleTokenizers.sent_tokenize
              SimpleTokenizers.word_tokenize text_digest length_embed demo_parents
              demo_parents_reachable) as (Hdig & Hkeep & _).
  split; [exact demo_parents_reachable |]. split; [exact Hk |].
  split; [exact (Hdig _ _ Hk) |].
  apply (proj2 (Hkeep demo_text_longer 10 3 _ _ Hk)).
  intros chunks chunk Hrun Hin Hid.
  assert (E : chunks = [demo_text; "Birds sing. Fish swim."%string])
    by (vm_compute in Hrun; injection Hrun as <-; reflexivity).
  subst chunks.
  apply elem_of_cons in Hin as [-> | Hin]; [reflexivity |].
  apply list_elem_of_singleton in Hin. subst chunk.
  vm_compute in Hid. discriminate.
Defined.

End Ingester.

(** ** More about sentence_aware_splitter *)

Module SplitterFacts.
Import Splitter.

Section Core.
Variable sentence_data : list (string * nat).
Variables num_tokens token_overlap : Z.

(** Why the greedy loop stopped before the sentence at its exit index:
    taking it would pass the limit, unless the chunk is a lone oversized
    sentence. *)
Lemma build_chunk_stop rest cs tc e cs' tc' e' s c :
  build_chunk num_tokens rest cs tc e = (cs', tc', e') ->
  rest !! (e' - e)%nat = Some (s, c) ->
  num_tokens < tc' + Z.of_nat c \/
  (cs = [] /\ e' = S e /\ exists s0 c0, rest !! 0%nat = Some (s0, c0) /\ num_tokens < Z.of_nat c0).
Proof.
  revert cs tc e. induction rest as [| [s0 c0] rest IH]; intros cs tc e H Hnext.
  - rewrite lookup_nil in Hnext. discriminate.
  - simpl in H. destruct (bool_decide (cs = []) && (Z.of_nat c0 >? num_tokens)) eqn:E1.
    { inversion H; subst. apply andb_true_iff in E1 as [E1 E2].
      apply bool_decide_eq_true_1 in E1. rewrite Z.gtb_ltb in E2. apply Z.ltb_lt in E2.
      right. split; [exact E1 |]. split; [reflexivity |]. exists s0, c0. auto. }
    destruct (tc + Z.of_nat c0 >? num_tokens) eqn:E2.
    { inversion H; subst. rewrite Nat.sub_diag in Hnext. simpl in Hnext.
      inversion Hnext; subst. rewrite Z.gtb_ltb in E2. apply Z.ltb_lt in E2. left. lia. }
    pose proof (build_chunk_shape _ _ _ _ _ _ _ _ H) as (k & _ & Hk & _).
    replace (e' - e)%nat with (S (e' - S e)) in Hnext by lia. simpl in Hnext.
    destruct (IH _ _ _ H Hnext) as [Hl | (Hnil & _)]; [left; exact Hl |].
    now apply app_eq_nil in Hnil as [_ ?].
Qed.

Lemma build_stop cur :
  (cur < length sentence_data)%nat ->
  (c_stop (build sentence_data num_tokens cur) < length sentence_data)%nat ->
  num_tokens < c_token_count (build sentence_data num_tokens cur)
               + count_at sentence_data (c_stop (build sentence_data num_tokens cur)) \/
  (c_stop (build sentence_data num_tokens cur) = S cur /\
   num_tokens < count_at sentence_data cur).
Proof.
  intros Hlt Hs. unfold build in *.
  destruct (build_chunk _ _ _ _ _) as [[cs tc] e] eqn:E. simpl in *.
  destruct (lookup_lt_is_Some_2 sentence_data e Hs) as [[s c] Hx].
  pose proof (build_chunk_shape _ _ _ _ _ _ _ _ E) as (k & _ & Hk & _).
  assert (Hnext : drop cur sentence_data !! (e - cur)%nat = Some (s, c)).
  { rewrite lookup_drop. now replace (cur + (e - cur))%nat with e by lia. }
  destruct (build_chunk_stop _ _ _ _ _ _ _ _ _ E Hnext) as [Hl | (_ & He & s0 & c0 & H0 & Hbig)].
  - left. now rewrite (count_at_lookup _ _ _ Hx).
  - right. split; [exact He |].
    rewrite lookup_drop, Nat.add_0_r in H0. now rewrite (count_at_lookup _ _ _ H0).
Qed.

(** Without a positive overlap the backward walk does not move. *)
Lemma next_cursor_no_overlap cur e :
  token_overlap <= 0 -> (cur < e)%nat -> next_cursor sentence_data token_overlap cur e = e.
Proof.
  intros Ho Hce. unfold next_cursor. destruct e as [| e]; [lia |].
  replace (S e - 1)%nat with e by lia. destruct e as [| e]; simpl; [lia |].
  replace (0 <? token_overlap) with false by (symmetry; apply Z.ltb_ge; lia).
  rewrite andb_false_r. simpl. lia.
Qed.

Lemma run_partition cur tr :
  token_overlap <= 0 ->
  run sentence_data num_tokens token_overlap cur tr ->
  concat (map c_sentences tr) = map fst (drop cur sentence_data).
Proof.
  intros Ho Hrun.
  induction Hrun as [cur Hge | cur Hlt Hl | cur tr Hlt Hs Hrun IH]; simpl.
  - now rewrite drop_ge.
  - destruct (build_span sentence_data num_tokens cur) as (_ & _ & -> & _).
    rewrite app_nil_r. unfold span. rewrite take_ge; [reflexivity |].
    rewrite length_drop. lia.
  - pose proof (build_progress sentence_data num_tokens cur Hlt) as Hp.
    rewrite (next_cursor_no_overlap _ _ Ho Hp) in IH. rewrite IH.
    destruct (build_span sentence_data num_tokens cur) as (_ & _ & -> & _).
    rewrite <- map_app. f_equal. unfold span.
    etransitivity;
      [| apply (take_drop (c_stop (build sentence_data num_tokens cur) - cur))].
    f_equal. rewrite drop_drop. f_equal. lia.
Qed.

(** The first chunk starts where the loop starts and the last one ends
    with the last sentence. *)
Lemma run_ends cur tr :
  run sentence_data num_tokens token_overlap cur tr ->
  (cur < length sentence_data)%nat ->
  (exists c, head tr = Some c /\ c_start c = cur) /\
  (exists c, last tr = Some c /\ c_stop c = length sentence_data).
Proof.
  intros Hrun.
  induction Hrun as [cur Hge | cur Hlt Hl | cur tr Hlt Hs Hrun IH]; intros Hc.
  - lia.
  - split; exists (build sentence_data num_tokens cur); (split; [reflexivity |]).
    + apply build_start.
    + destruct (build_span sentence_data num_tokens cur) as (_ & H2 & _). lia.
  - split.
    + exists (build sentence_data num_tokens cur). split; [reflexivity | apply build_start].
    + pose proof (run_nonempty _ _ _ _ _ Hrun) as Hne.
      destruct tr as [| c' tr].
      * inversion Hrun; subst. pose proof (build_progress sentence_data num_tokens cur Hlt).
        pose proof (next_cursor_le sentence_data token_overlap cur
                      (c_stop (build sentence_data num_tokens cur)) ltac:(lia) ltac:(lia)).
        lia.
      * apply run_head in Hrun as Hh. destruct Hh as [_ Hlt'].
        destruct (IH Hlt') as (_ & c & Hlast & Hstop).
        exists c. split; [| exact Hstop]. rewrite last_cons. now rewrite Hlast.
Qed.

End Core.

Section Text.
Variable sent_tokenize : string -> list string.
Variable word_tokenize : string -> list string.

Abbreviation sentence_aware_splitter :=
  (Splitter.sentence_aware_splitter sent_tokenize word_tokenize).
Abbreviation splitter_trace := (Splitter.splitter_trace sent_tokenize word_tokenize).
Abbreviation sentence_data_of := (Splitter.sentence_data_of sent_tokenize word_tokenize).

Lemma data_sentences text : map fst (sentence_data_of text) = sent_tokenize text.
Proof.
  unfold sentence_data_of. rewrite map_map. simpl. apply map_id.
Qed.

Lemma trace_chunk_bounds text n o c :
  c ∈ splitter_trace text n o ->
  (c_start c < c_stop c)%nat /\ (c_stop c <= length (sent_tokenize text))%nat /\
  c_sentences c <> [].
Proof.
  intros Hin.
  destruct (run_built _ _ _ _ _ _ (splitter_trace_run _ _ text n o) Hin) as (Hc & Hlt & _).
  destruct (build_chunk_ok _ n _ Hlt) as (H1 & H2 & H3 & _).
  rewrite <- Hc in *. rewrite sentence_data_length in H2.
  split; [exact H1 |]. split; [exact H2 |].
  intros Hnil. apply (f_equal length) in Hnil. rewrite H3 in Hnil.
  rewrite length_map in Hnil. unfold span in Hnil.
  rewrite length_take, length_drop, sentence_data_length in Hnil. simpl in Hnil. lia.
Qed.

(** X1. The call raises exactly when [num_tokens <= token_overlap], with
    the [ValueError] of line 8 and whatever the text; otherwise it
    returns a list. *)
Theorem sentence_aware_splitter_error text n o :
  (sentence_aware_splitter text n o =
     Raise (ValueError "num_tokens must be greater than token_overlap")
   <-> n <= o) /\
  ((exists chunks, sentence_aware_splitter text n o = Ok chunks) <-> o < n).
Proof.
  destruct (Z_le_gt_dec n o) as [Hbad | Hok].
  - rewrite (splitter_raises _ _ text n o Hbad). split; split; try lia; try reflexivity.
    intros (chunks & H). discriminate.
  - rewrite (splitter_returns _ _ text n o ltac:(lia)). split; split; try lia.
    + discriminate.
    + eauto.
Qed.

(** X2. With valid parameters the result is the empty list exactly when
    the segmentation of the text is empty. *)
Theorem sentence_aware_splitter_empty text n o :
  o < n -> (sentence_aware_splitter text n o = Ok [] <-> sent_tokenize text = []).
Proof.
  intros Hv. rewrite (splitter_returns _ _ text n o Hv). split.
  - intros H. destruct (sent_tokenize text) as [| s l] eqn:E; [reflexivity | exfalso].
    assert (Hpos : (0 < length (sentence_data_of text))%nat)
      by (rewrite sentence_data_length, E; simpl; lia).
    apply (run_nonempty _ _ _ _ _ (splitter_trace_run _ _ text n o) Hpos).
    injection H as H. now apply map_eq_nil in H.
  - intros H. unfold splitter_trace.
    rewrite split_loop_done; [reflexivity |]. rewrite sentence_data_length, H. simpl. lia.
Qed.

(** X3. When all the sentences together fit in [num_tokens], the result
    is one chunk: the sentences joined by single spaces. *)
Theorem sentence_aware_splitter_single_chunk text n o :
  o < n -> sent_tokenize text <> [] -> tokens_of (sentence_data_of text) <= n ->
  sentence_aware_splitter text n o = Ok [join " " (sent_tokenize text)].
Proof.
  intros Hv Hne Hfit. rewrite (splitter_returns _ _ text n o Hv).
  assert (Hpos : (0 < length (sentence_data_of text))%nat).
  { rewrite sentence_data_length. destruct (sent_tokenize text); [congruence | simpl; lia]. }
  assert (Hspan : span (sentence_data_of text) 0 (length (sentence_data_of text)) = sentence_data_of text).
  { unfold span. rewrite drop_0, Nat.sub_0_r. apply firstn_all. }
  assert (Hstop : (length (sentence_data_of text) <= c_stop (build (sentence_data_of text) n 0))%nat).
  { apply build_greedy; try lia. unfold span_tokens. now rewrite Hspan. }
  unfold splitter_trace. rewrite (split_loop_last _ _ _ _ _ Hpos Hstop). simpl.
  do 2 f_equal. unfold chunk_text. f_equal.
  destruct (build_span (sentence_data_of text) n 0) as (_ & Hle & -> & _).
  replace (c_stop (build (sentence_data_of text) n 0)) with (length (sentence_data_of text)) by lia.
  rewrite Hspan. apply data_sentences.
Qed.

(** X4. With [token_overlap <= 0] the chunks cut the sentence sequence
    into consecutive non-empty groups: each chunk starts where the one
    before it ended, and the groups put end to end are the sentences. *)
Theorem sentence_aware_splitter_partition text n o :
  o <= 0 -> o < n ->
  exists groups,
    sentence_aware_splitter text n o = Ok (map (join " ") groups) /\
    concat groups = sent_tokenize text /\
    Forall (fun g => g <> []) groups /\
    (forall i c1 c2, splitter_trace text n o !! i = Some c1 -> splitter_trace text n o !! S i = Some c2 ->
                     c_start c2 = c_stop c1).
Proof.
  intros Ho Hv. exists (map c_sentences (splitter_trace text n o)).
  pose proof (splitter_trace_run sent_tokenize word_tokenize text n o) as Hrun.
  split; [| split; [| split]].
  - rewrite (splitter_returns _ _ text n o Hv), map_map. reflexivity.
  - rewrite (run_partition _ _ _ _ _ Ho Hrun), drop_0. apply data_sentences.
  - apply Forall_forall. intros g Hg.
    apply list_elem_of_In, in_map_iff in Hg as (c & <- & Hc).
    apply list_elem_of_In in Hc. now destruct (trace_chunk_bounds _ _ _ _ Hc) as (_ & _ & ?).
  - intros i c1 c2 H1 H2.
    destruct (run_adjacent _ _ _ _ _ _ _ _ Hrun H1 H2) as (E1 & _ & L1 & _ & _ & ->).
    apply next_cursor_no_overlap; [exact Ho |].
    rewrite E1 at 2. now apply build_progress.
Qed.

(** X5. With valid parameters and at least one sentence, the first chunk
    starts at the first sentence, the last chunk ends with the last
    sentence, and every chunk is a non-empty range of sentence indices
    within the text. *)
Theorem sentence_aware_splitter_ends text n o :
  o < n -> sent_tokenize text <> [] ->
  exists first_chunk last_chunk,
    sentence_aware_splitter text n o = Ok (map chunk_text (splitter_trace text n o)) /\
    head (splitter_trace text n o) = Some first_chunk /\ c_start first_chunk = 0%nat /\
    last (splitter_trace text n o) = Some last_chunk /\
    c_stop last_chunk = length (sent_tokenize text) /\
    (forall c, c ∈ splitter_trace text n o ->
               (c_start c < c_stop c)%nat /\ (c_stop c <= length (sent_tokenize text))%nat).
Proof.
  intros Hv Hne.
  assert (Hpos : (0 < length (sentence_data_of text))%nat).
  { rewrite sentence_data_length. destruct (sent_tokenize text); [congruence | simpl; lia]. }
  destruct (run_ends _ _ _ _ _ (splitter_trace_run _ _ text n o) Hpos)
    as ((c0 & Hh & Hs0) & (cl & Hl & Hsl)).
  exists c0, cl. rewrite sentence_data_length in Hsl.
  split; [now apply splitter_returns |]. repeat (split; [assumption |]).
  intros c Hc. destruct (trace_chunk_bounds _ _ _ _ Hc) as (? & ? & _). auto.
Qed.

(** X6. Chunks are maximal: when a chunk ends before the last sentence,
    either adding the next sentence would pass [num_tokens], or the
    chunk is a single sentence that alone exceeds [num_tokens]. *)
Theorem sentence_aware_splitter_maximal text n o c :
  o < n -> c ∈ splitter_trace text n o -> (c_stop c < length (sent_tokenize text))%nat ->
  n < c_token_count c + count_at (sentence_data_of text) (c_stop c) \/
  (c_stop c = S (c_start c) /\ n < count_at (sentence_data_of text) (c_start c)).
Proof.
  intros Hv Hin Hs.
  destruct (run_built _ _ _ _ _ _ (splitter_trace_run _ _ text n o) Hin) as (Hc & Hlt & _).
  rewrite <- (sentence_data_length sent_tokenize word_tokenize) in Hs. rewrite Hc in Hs.
  pose proof (build_stop (sentence_data_of text) n (c_start c) Hlt Hs) as H.
  now rewrite <- Hc in H.
Qed.

End Text.

Abbreviation simple_sent := SimpleTokenizers.sent_tokenize.
Abbreviation simple_word := SimpleTokenizers.word_tokenize.

Lemma sentence_aware_splitter_empty_witness :
  3 < 10 /\
  (simple_splitter "   " 10 3 = Ok [] <-> simple_sent "   " = []).
Proof.
  assert (H : 3 < 10) by lia.
  exact (conj H (sentence_aware_splitter_empty simple_sent simple_word "   " 10 3 H)).
Defined.

Lemma sentence_aware_splitter_single_chunk_witness :
  (3 < 20 /\ simple_sent text_five <> [] /\ tokens_of (simple_data text_five) <= 20) /\
  simple_splitter text_five 20 3 = Ok ["It rains. We stay. They go. You come. I wait."%string].
Proof.
  assert (H1 : 3 < 20) by lia.
  assert (H2 : simple_sent text_five <> []) by (vm_compute; discriminate).
  assert (H3 : tokens_of (simple_data text_five) <= 20)
    by (vm_compute; intros H; discriminate H).
  split; [auto |].
  exact (sentence_aware_splitter_single_chunk simple_sent simple_word text_five 20 3 H1 H2 H3).
Defined.

Lemma sentence_aware_splitter_partition_witness :
  (0 <= 0 /\ 0 < 8) /\
  exists groups,
    simple_splitter text_four 8 0 = Ok (map (join " ") groups) /\
    concat groups = simple_sent text_four.
Proof.
  assert (H1 : 0 <= 0) by lia. assert (H2 : 0 < 8) by lia.
  split; [auto |].
  destruct (sentence_aware_splitter_partition simple_sent simple_word text_four 8 0 H1 H2)
    as (groups & E1 & E2 & _).
  exists groups. auto.
Defined.

Lemma sentence_aware_splitter_ends_witness :
  (3 < 8 /\ simple_sent text_four <> []) /\
  exists first_chunk last_chunk,
    head (simple_trace text_four 8 3) = Some first_chunk /\ c_start first_chunk = 0%nat /\
    last (simple_trace text_four 8 3) = Some last_chunk /\ c_stop last_chunk = 4%nat.
Proof.
  assert (H1 : 3 < 8) by lia.
  assert (H2 : simple_sent text_four <> []) by (vm_compute; discriminate).
  split; [auto |].
  destruct (sentence_aware_splitter_ends simple_sent simple_word text_four 8 3 H1 H2)
    as (c0 & cl & _ & A & B & C & D & _).
  exists c0, cl. auto.
Defined.

Lemma sentence_aware_splitter_maximal_witness :
  (3 < 8 /\ four_chunk0 ∈ simple_trace text_four 8 3 /\
   (c_stop four_chunk0 < length (simple_sent text_four))%nat) /\
  (8 < c_token_count four_chunk0 + count_at (simple_data text_four) (c_stop four_chunk0) \/
   (c_stop four_chunk0 = S (c_start four_chunk0) /\
    8 < count_at (simple_data text_four) (c_start four_chunk0))).
Proof.
  assert (H1 : 3 < 8) by lia.
  assert (H2 : four_chunk0 ∈ simple_trace text_four 8 3)
    by (apply (list_elem_of_lookup_2 _ 0%nat); vm_compute; reflexivity).
  assert (H3 : (c_stop four_chunk0 < length (simple_sent text_four))%nat)
    by (vm_compute; lia).
  split; [auto |].
  exact (sentence_aware_splitter_maximal simple_sent simple_word text_four 8 3
           four_chunk0 H1 H2 H3).
Defined.

End SplitterFacts.

(** ** text_splitters.semantic_chunker *)

Module SemanticChunker.

(** An element of the returned list: the chunks appended in the loop are
    joined strings (line 104); the last one is appended as the list of
    its sentences (line 109). *)
Inductive piece : Type :=
| Joined (chunk : string)
| Sentences (sentences : list string).

Section Model.
Variable sent_tokenize : string -> list string.
(** Embedding vectors and similarity scores are NumPy values; the model
    takes them with the operations the code applies to them. *)
Variables Embedding score : Type.
(** [ollama.embeddings(model, sentence)['embedding']] *)
Variable ollama_embeddings : string -> string -> Embedding.
(** [np.dot(e1, e2) / (np.linalg.norm(e1) * np.linalg.norm(e2))] *)
Variable cosine : Embedding -> Embedding -> score.
(** [np.percentile(scores, q)] *)
Variable percentile : list score -> Z -> score.
(** [sim < score_threshold] *)
Variable score_lt : score -> score -> bool.

(** Lines 85-91: the similarity of each embedding with the next one. *)
Fixpoint similarities (embeddings : list Embedding) : list score :=
  match embeddings with
  | emb1 :: (emb2 :: _) as rest => cosine emb1 emb2 :: similarities rest
  | _ => []
  end.

(** Line 97: [[i+1 for i, sim in enumerate(similarites) if sim < score_threshold]],
    with [i] the index of the head of [sims]. *)
Fixpoint split_indices_from (i : nat) (score_threshold : score) (sims : list score)
  : list nat :=
  match sims with
  | [] => []
  | sim :: rest =>
      if score_lt sim score_threshold
      then S i :: split_indices_from (S i) score_threshold rest
      else split_indices_from (S i) score_threshold rest
  end.

(** [sentences[start_idx:end_idx]] *)
Definition slice (sentences : list string) (start_idx end_idx : nat) : list string :=
  take (end_idx - start_idx) (drop start_idx sentences).

(** Lines 101-110. *)
Fixpoint chunk_loop (sentences : list string) (split_indices : list nat)
    (start_idx : nat) (chunks : list piece) : list piece :=
  match split_indices with
  | [] => chunks ++ [Sentences (drop start_idx sentences)]
  | end_idx :: rest =>
      chunk_loop sentences rest end_idx
        (chunks ++ [Joined (join " " (slice sentences start_idx end_idx))])
  end.

(** Lines 70-110. *)
Definition semantic_chunker (text embedding_model : string) (threshold_percentile : Z)
  : list piece :=
  let sentences := sent_tokenize text in
  if (length sentences <? 2)%nat then [Joined text]
  else
    let embeddings := map (ollama_embeddings embedding_model) sentences in
    let similarites := similarities embeddings in
    let score_threshold := percentile similarites threshold_percentile in
    let split_indices := split_indices_from 0 score_threshold similarites in
    chunk_loop sentences split_indices 0 [].

(** The similarity scores and split points of a text, as the function
    computes them. *)
Definition scores_of (text embedding_model : string) : list score :=
  similarities (map (ollama_embeddings embedding_model) (sent_tokenize text)).

Definition splits_of (text embedding_model : string) (threshold_percentile : Z) : list nat :=
  split_indices_from 0
    (percentile (scores_of text embedding_model) threshold_percentile)
    (scores_of text embedding_model).

(** [start < e1 < e2 < ... < ek < len] *)
Fixpoint increasing_from (start : nat) (indices : list nat) (len : nat) : Prop :=
  match indices with
  | [] => (start < len)%nat
  | e :: rest => (start < e)%nat /\ increasing_from e rest len
  end.

Lemma similarities_length embeddings :
  length (similarities embeddings) = (length embeddings - 1)%nat.
Proof.
  induction embeddings as [| e1 [| e2 rest] IH]; simpl in *; try reflexivity.
  rewrite IH. lia.
Qed.

Lemma increasing_from_weaken start start' indices len :
  (start <= start')%nat -> increasing_from start' indices len ->
  increasing_from start indices len.
Proof. destruct indices; simpl; intros; [lia | intuition lia]. Qed.

Lemma split_indices_increasing i thr sims len :
  (i + length sims < len)%nat -> increasing_from i (split_indices_from i thr sims) len.
Proof.
  revert i. induction sims as [| sim rest IH]; intros i Hlen; simpl in *; [lia |].
  destruct (score_lt sim thr); simpl.
  - split; [lia | apply IH; lia].
  - apply (increasing_from_weaken i (S i)); [lia | apply IH; lia].
Qed.

Lemma split_indices_length i thr sims :
  length (split_indices_from i thr sims) =
  length (filter (fun sim => score_lt sim thr = true) sims).
Proof.
  revert i. induction sims as [| sim rest IH]; intros i; simpl; [reflexivity |].
  rewrite filter_cons. destruct (score_lt sim thr) eqn:E.
  - rewrite decide_True by reflexivity. simpl. now rewrite IH.
  - rewrite decide_False by discriminate. apply IH.
Qed.

Lemma chunk_loop_groups sentences indices start chunks :
  increasing_from start indices (length sentences) ->
  exists groups last_group,
    chunk_loop sentences indices start chunks =
      chunks ++ map (fun g => Joined (join " " g)) groups ++ [Sentences last_group] /\
    concat groups ++ last_group = drop start sentences /\
    Forall (fun g => g <> []) groups /\ last_group <> [] /\
    length groups = length indices.
Proof.
  revert start chunks. induction indices as [| e rest IH]; intros start chunks Hinc; simpl in *.
  - exists [], (drop start sentences). simpl. repeat split; auto.
    intros Hnil. apply (f_equal length) in Hnil. rewrite length_drop in Hnil. simpl in Hnil. lia.
  - destruct Hinc as [Hse Hinc].
    assert (Hlen : (e < length sentences)%nat).
    { clear - Hinc. revert e Hinc. induction rest as [| e' rest IH]; simpl; intros e H; [exact H |].
      destruct H as [H1 H2]. specialize (IH _ H2). lia. }
    destruct (IH e (chunks ++ [Joined (join " " (slice sentences start e))]) Hinc)
      as (groups & lastg & E & Hcat & Hne & Hl & Hlen').
    exists (slice sentences start e :: groups), lastg. simpl.
    split; [rewrite E, <- app_assoc; reflexivity |].
    split; [| split; [| split; [exact Hl | now rewrite Hlen']]].
    + rewrite <- app_assoc, Hcat. unfold slice.
      etransitivity; [| apply (take_drop (e - start))].
      f_equal. rewrite drop_drop. f_equal. lia.
    + constructor; [| exact Hne].
      intros Hnil. apply (f_equal length) in Hnil. unfold slice in Hnil.
      rewrite length_take, length_drop in Hnil. simpl in Hnil. lia.
Qed.

(** X7. The result is never empty; for a text of fewer than two
    sentences it is the text itself as the only chunk, even when the
    text has no sentence at all. *)
Theorem semantic_chunker_short_text text model q :
  semantic_chunker text model q <> [] /\
  ((length (sent_tokenize text) < 2)%nat -> semantic_chunker text model q = [Joined text]).
Proof.
  unfold semantic_chunker. destruct (length (sent_tokenize text) <? 2)%nat eqn:E.
  - split; [discriminate | reflexivity].
  - apply Nat.ltb_ge in E. split; [| lia].
    destruct (chunk_loop_groups (sent_tokenize text)
                (split_indices_from 0
                   (percentile (similarities (map (ollama_embeddings model) (sent_tokenize text))) q)
                   (similarities (map (ollama_embeddings model) (sent_tokenize text))))
                0%nat []) as (groups & lastg & -> & _).
    + apply split_indices_increasing. rewrite similarities_length, length_map. lia.
    + simpl. intros H. now apply app_eq_nil in H as [_ ?].
Qed.

(** X8. For a text of two or more sentences the result cuts the
    sentences into consecutive non-empty groups, one more than there are
    similarity scores below the threshold: the groups in order are the
    sentences, nothing lost or repeated; all groups but the last are
    returned joined by spaces, the last one as the list of its
    sentences. *)
Theorem semantic_chunker_partition text model q :
  (2 <= length (sent_tokenize text))%nat ->
  exists groups last_group,
    semantic_chunker text model q =
      map (fun g => Joined (join " " g)) groups ++ [Sentences last_group] /\
    concat groups ++ last_group = sent_tokenize text /\
    Forall (fun g => g <> []) groups /\ last_group <> [] /\
    length groups =
      length (filter (fun sim => score_lt sim (percentile (scores_of text model) q) = true)
                (scores_of text model)) /\
    length (scores_of text model) = (length (sent_tokenize text) - 1)%nat.
Proof.
  intros Hlen. unfold semantic_chunker.
  replace (length (sent_tokenize text) <? 2)%nat with false
    by (symmetry; apply Nat.ltb_ge; lia).
  fold (scores_of text model). simpl.
  assert (Hsc : length (scores_of text model) = (length (sent_tokenize text) - 1)%nat)
    by (unfold scores_of; now rewrite similarities_length, length_map).
  destruct (chunk_loop_groups (sent_tokenize text)
              (split_indices_from 0 (percentile (scores_of text model) q) (scores_of text model))
              0%nat []) as (groups & lastg & E & Hcat & Hne & Hl & Hn).
  { apply split_indices_increasing. lia. }
  exists groups, lastg. rewrite E. rewrite drop_0 in Hcat.
  rewrite split_indices_length in Hn. simpl. auto 10.
Qed.

End Model.

(** A concrete instance: the embedding of a sentence is its length, the
    similarity of two embeddings is minus their distance, the threshold
    is the largest score. *)
Definition length_embedding (model sentence : string) : Z := Z.of_nat (String.length sentence).
Definition closeness (a b : Z) : Z := - Z.abs (a - b).
Definition largest (scores : list Z) (q : Z) : Z := fold_right Z.max (-1000) scores.

Abbreviation simple_semantic_chunker :=
  (semantic_chunker SimpleTokenizers.sent_tokenize Z Z length_embedding closeness largest
     Z.ltb).

Lemma semantic_chunker_partition_witness :
  (2 <= length (SimpleTokenizers.sent_tokenize Splitter.text_four))%nat /\
  exists groups last_group,
    simple_semantic_chunker Splitter.text_four "model" 95 =
      map (fun g => Joined (join " " g)) groups ++ [Sentences last_group] /\
    concat groups ++ last_group = SimpleTokenizers.sent_tokenize Splitter.text_four.
Proof.
  assert (H : (2 <= length (SimpleTokenizers.sent_tokenize Splitter.text_four))%nat)
    by (vm_compute; lia).
  split; [exact H |].
  destruct (semantic_chunker_partition SimpleTokenizers.sent_tokenize Z Z length_embedding
              closeness largest Z.ltb Splitter.text_four "model" 95 H)
    as (groups & lastg & E1 & E2 & _).
  exists groups, lastg. auto.
Defined.

End SemanticChunker.

(** ** More about ParentChildIngester *)

Module IngesterFacts.
Import Ingester.

(** The keys of a dictionary, in iteration order. *)
Definition dict_keys (d : dict) : list string := map fst d.

Lemma dict_get_None d k : dict_get d k = None <-> k ∉ dict_keys d.
Proof.
  induction d as [| [k0 v0] d IH]; simpl.
  - split; [intros _ H; inversion H | reflexivity].
  - case_bool_decide as E.
    + split; [discriminate | intros H; exfalso; apply H; subst; left].
    + rewrite IH, not_elem_of_cons. intuition congruence.
Qed.

Lemma dict_get_Some_elem d k v : dict_get d k = Some v -> (k, v) ∈ d.
Proof.
  induction d as [| [k0 v0] d IH]; simpl; [discriminate |].
  case_bool_decide as E.
  - intros [= <-]. subst. left.
  - intros H. right. now apply IH.
Qed.

Lemma dict_elem_get d k v : NoDup (dict_keys d) -> (k, v) ∈ d -> dict_get d k = Some v.
Proof.
  induction d as [| [k0 v0] d IH]; simpl; intros Hnd Hin; [inversion Hin |].
  apply NoDup_cons in Hnd as [Hnotin Hnd].
  apply elem_of_cons in Hin as [[= -> ->] | Hin].
  - now rewrite bool_decide_eq_true_2.
  - rewrite bool_decide_eq_false_2; [now apply IH |].
    intros ->. apply Hnotin. apply list_elem_of_In, in_map_iff. exists (k, v).
    split; [reflexivity | now apply list_elem_of_In].
Qed.

Lemma dict_set_present d k v :
  is_Some (dict_get d k) -> dict_keys (dict_set d k v) = dict_keys d.
Proof.
  induction d as [| [k0 v0] d IH]; simpl; intros H; [now destruct H |].
  case_bool_decide as E; simpl; [reflexivity |]. now rewrite IH.
Qed.

Lemma dict_set_absent d k v : dict_get d k = None -> dict_set d k v = d ++ [(k, v)].
Proof.
  induction d as [| [k0 v0] d IH]; simpl; intros H; [reflexivity |].
  case_bool_decide as E; [discriminate |]. now rewrite IH.
Qed.

Lemma dict_set_NoDup d k v : NoDup (dict_keys d) -> NoDup (dict_keys (dict_set d k v)).
Proof.
  intros Hnd. destruct (dict_get d k) as [x |] eqn:E.
  - rewrite dict_set_present by eauto. exact Hnd.
  - rewrite dict_set_absent by exact E. unfold dict_keys. rewrite map_app. simpl.
    apply NoDup_app. split; [exact Hnd |]. split; [| apply NoDup_singleton].
    intros x Hx Hk. apply list_elem_of_singleton in Hk. subst x.
    now apply dict_get_None in E.
Qed.


(** Dictionaries with the same keys in the same order, none repeated,
    and the same value under every key are equal. *)
Lemma dict_ext d1 d2 :
  dict_keys d1 = dict_keys d2 -> NoDup (dict_keys d1) ->
  (forall k, dict_get d1 k = dict_get d2 k) -> d1 = d2.
Proof.
  revert d2. induction d1 as [| [k1 v1] d1 IH]; intros [| [k2 v2] d2] Hk Hnd Hget;
    simpl in Hk; try discriminate; [reflexivity |].
  injection Hk as -> Hk. apply NoDup_cons in Hnd as [Hnotin Hnd].
  pose proof (Hget k2) as H0. simpl in H0. rewrite !bool_decide_eq_true_2 in H0 by reflexivity.
  injection H0 as ->. f_equal. apply IH; [exact Hk | exact Hnd |].
  intros k. specialize (Hget k). simpl in Hget.
  case_bool_decide as E; [| exact Hget]. subst k.
  assert (G1 : dict_get d1 k2 = None) by now apply dict_get_None.
  assert (G2 : dict_get d2 k2 = None)
    by (apply dict_get_None; unfold dict_keys in *; now rewrite <- Hk).
  now rewrite G1, G2.
Qed.

Section Facts.
Variable sent_tokenize : string -> list string.
Variable word_tokenize : string -> list string.
Variable sha256_hexdigest : list Byte.byte -> string.
Context {Embedding C : Type} `{!VectorIndex Embedding C}.
Variable ollama_embed : string -> string -> Embedding.

Abbreviation sentence_aware_splitter :=
  (Splitter.sentence_aware_splitter sent_tokenize word_tokenize).
Abbreviation content_id := (Ingester.content_id sha256_hexdigest).
Abbreviation put_all := (Ingester.put_all sha256_hexdigest).
Abbreviation _ingest_parent_docs :=
  (Ingester._ingest_parent_docs sent_tokenize word_tokenize sha256_hexdigest).
Abbreviation _ingest_child_docs :=
  (Ingester._ingest_child_docs sent_tokenize word_tokenize sha256_hexdigest ollama_embed).
Abbreviation _retrieve_docs := (Ingester._retrieve_docs ollama_embed).
Abbreviation reachable :=
  (Ingester.reachable sent_tokenize word_tokenize sha256_hexdigest ollama_embed).

(** The last of [chunks] whose digest is [k], or [acc] when there is
    none. *)
Definition last_with_digest (k : string) (acc : option string) (chunks : list string)
  : option string :=
  foldl (fun acc chunk => if bool_decide (content_id chunk = k) then Some chunk else acc) acc chunks.

Lemma put_all_lookup d chunks k :
  dict_get (put_all d chunks) k = last_with_digest k (dict_get d k) chunks.
Proof.
  revert d. induction chunks as [| c chunks IH]; intros d; [reflexivity |].
  unfold Ingester.put_all, last_with_digest in *. simpl. rewrite IH. f_equal.
  case_bool_decide as E.
  - rewrite <- E. apply dict_get_set_eq.
  - now apply dict_get_set_ne.
Qed.

Lemma last_with_digest_Some k x chunks : is_Some (last_with_digest k (Some x) chunks).
Proof.
  revert x. induction chunks as [| c chunks IH]; intros x; [simpl; eauto |].
  unfold last_with_digest in *. simpl. case_bool_decide; apply IH.
Qed.

Lemma last_with_digest_acc k acc chunks :
  last_with_digest k acc chunks =
  match last_with_digest k None chunks with
  | Some c => Some c
  | None => acc
  end.
Proof.
  revert acc. induction chunks as [| c chunks IH]; intros acc; [reflexivity |].
  unfold last_with_digest in *. simpl. case_bool_decide as E.
  - destruct (last_with_digest_Some k c chunks) as [x Hx].
    unfold last_with_digest in Hx. now rewrite Hx.
  - apply IH.
Qed.

Lemma last_with_digest_member k acc chunks c :
  last_with_digest k acc chunks = Some c ->
  acc = Some c \/ (c ∈ chunks /\ content_id c = k).
Proof.
  revert acc. induction chunks as [| c0 chunks IH]; intros acc H; [now left |].
  unfold last_with_digest in *. simpl in H. apply IH in H as [H | [H1 H2]].
  - case_bool_decide as E; [| now left]. injection H as <-. right. split; [left | exact E].
  - right. split; [now right | exact H2].
Qed.

Lemma last_with_digest_covers chunks c acc :
  c ∈ chunks -> is_Some (last_with_digest (content_id c) acc chunks).
Proof.
  revert acc. induction chunks as [| c0 chunks IH]; intros acc Hin; [inversion Hin |].
  unfold last_with_digest in *. simpl.
  apply elem_of_cons in Hin as [<- | Hin]; [| now apply IH].
  rewrite bool_decide_eq_true_2 by reflexivity. apply last_with_digest_Some.
Qed.

Lemma put_all_NoDup d chunks : NoDup (dict_keys d) -> NoDup (dict_keys (put_all d chunks)).
Proof.
  revert d. induction chunks as [| c chunks IH]; intros d Hnd; [exact Hnd |].
  apply IH, dict_set_NoDup, Hnd.
Qed.


(** Writing chunks whose keys are all present changes no key. *)
Lemma put_all_present d chunks :
  (forall c, c ∈ chunks -> is_Some (dict_get d (content_id c))) ->
  dict_keys (put_all d chunks) = dict_keys d.
Proof.
  revert d. induction chunks as [| c chunks IH]; intros d Hall; [reflexivity |].
  unfold Ingester.put_all in *. simpl. rewrite IH.
  - apply dict_set_present, Hall. left.
  - intros c' Hin. destruct (decide (content_id c = content_id c')) as [E | E].
    + rewrite <- E, dict_get_set_eq. eauto.
    + rewrite dict_get_set_ne by exact E. apply Hall. now right.
Qed.

Lemma put_all_twice d chunks :
  NoDup (dict_keys d) -> put_all (put_all d chunks) chunks = put_all d chunks.
Proof.
  intros Hnd. apply dict_ext.
  - apply put_all_present. intros c Hin. rewrite put_all_lookup.
    now apply last_with_digest_covers.
  - apply put_all_NoDup, put_all_NoDup, Hnd.
  - intros k. rewrite !put_all_lookup.
    rewrite (last_with_digest_acc k (last_with_digest _ _ _)).
    rewrite (last_with_digest_acc k (dict_get d k)).
    now destruct (last_with_digest k None chunks).
Qed.

Lemma reachable_NoDup s : reachable s -> NoDup (dict_keys (parent_doc_store s)).
Proof.
  induction 1 as [c | s text n o Hr IH | s n o model Hr IH | s q model k Hr IH].
  - constructor.
  - rewrite ingest_parent_run.
    destruct (sentence_aware_splitter text n o); simpl; [now apply put_all_NoDup | exact IH].
  - now rewrite ingest_child_store.
  - exact IH.
Qed.

(** Lines 106-149, without what is printed (the timings, the counts and
    the context string): the three calls in sequence; the default values
    of [num_tokens], [token_overlap] and [n_results] are arguments. *)
Definition _debug (text query embed_model_name : string) (num_tokens token_overlap : Z * Z)
    (n_results : Z) : M C unit :=
  let* _ := _ingest_parent_docs text (fst num_tokens) (fst token_overlap) in
  let* _ := _ingest_child_docs (snd num_tokens) (snd token_overlap) embed_model_name in
  let* results := _retrieve_docs query embed_model_name n_results in
  ret tt.

Lemma insert_all_lookup (m : gmap string (index_entry Embedding)) ws id e :
  insert_all m ws !! id = Some e -> m !! id = Some e \/ (id, e) ∈ ws.
Proof.
  revert m. induction ws as [| [id' e'] ws IH]; intros m H; [now left |].
  simpl in H. apply IH in H as [H | H]; [| right; now right].
  destruct (decide (id' = id)) as [-> | Hne].
  - rewrite lookup_insert_eq in H. injection H as ->. right. left.
  - rewrite lookup_insert_ne in H by exact Hne. now left.
Qed.

Lemma all_child_writes_elem store n o model id e :
  (id, e) ∈ Ingester.all_child_writes sent_tokenize word_tokenize sha256_hexdigest ollama_embed
              store n o model ->
  exists pid ptext i child,
    (pid, ptext) ∈ store /\
    map Splitter.chunk_text (Splitter.splitter_trace sent_tokenize word_tokenize ptext n o)
      !! i = Some child /\
    id = content_id child /\
    e = IndexEntry (ollama_embed model child)
          {[ "parent_id"%string := MStr pid; "chunk_index"%string := MInt (Z.of_nat i) ]}
          child.
Proof.
  unfold all_child_writes. rewrite list_elem_of_In, in_concat.
  intros (ws & Hws & Hin). apply in_map_iff in Hws as ([pid ptext] & <- & Hp).
  unfold child_writes in Hin. apply in_map_iff in Hin as ([i c] & E & Hic).
  apply list_elem_of_In in Hic. unfold enumerate in Hic.
  apply elem_of_lookup_imap in Hic as (j & c' & Ejc & Hj). injection Ejc as -> ->.
  exists pid, ptext, j, c'. injection E as <- <-.
  split; [now apply list_elem_of_In |]. auto.
Qed.



(** X9. For a reachable object, a second [_ingest_parent_docs] of the
    same text with the same parameters returns what the first returned
    and leaves the object as the first left it: same keys in the same
    order, same texts. *)
Theorem parent_ingestion_twice text n o (s : ingester C) :
  reachable s ->
  let r1 := _ingest_parent_docs text n o s in
  let r2 := _ingest_parent_docs text n o (snd r1) in
  snd r2 = snd r1 /\ fst r2 = fst r1.
Proof.
  intros Hr r1 r2. subst r2 r1. rewrite !ingest_parent_run.
  destruct (sentence_aware_splitter text n o) as [chunks | e]; simpl; [| auto].
  rewrite put_all_twice by now apply reachable_NoDup. auto.
Qed.

(** X10. After [_ingest_parent_docs] every chunk the sentence_aware_splitter returned
    for the text is found under its digest: the store holds there a
    chunk of that call with the same digest, the chunk itself when no
    other chunk of the call has its digest. *)
Theorem parent_ingestion_lookup text n o chunks chunk (s : ingester C) :
  sentence_aware_splitter text n o = Ok chunks -> chunk ∈ chunks ->
  let store' := parent_doc_store (snd (_ingest_parent_docs text n o s)) in
  (exists c, c ∈ chunks /\ sha256_hexdigest (encode c) = sha256_hexdigest (encode chunk) /\
             dict_get store' (sha256_hexdigest (encode chunk)) = Some c) /\
  ((forall c, c ∈ chunks ->
              sha256_hexdigest (encode c) = sha256_hexdigest (encode chunk) -> c = chunk) ->
   dict_get store' (sha256_hexdigest (encode chunk)) = Some chunk).
Proof.
  intros Hrun Hin store'. subst store'. rewrite ingest_parent_run, Hrun. simpl.
  fold (content_id chunk). rewrite put_all_lookup.
  destruct (last_with_digest_covers chunks chunk
              (dict_get (parent_doc_store s) (content_id chunk)) Hin) as [c Hc].
  rewrite Hc. rewrite last_with_digest_acc in Hc.
  destruct (last_with_digest (content_id chunk) None chunks) as [c' |] eqn:E.
  - injection Hc as ->.
    apply last_with_digest_member in E as [E | [E1 E2]]; [discriminate |].
    split; [exists c; auto |]. intros Hfree. f_equal. now apply Hfree.
  - exfalso. destruct (last_with_digest_covers chunks chunk None Hin) as [x Hx].
    rewrite E in Hx. discriminate.
Qed.

(** X11. [_ingest_parent_docs] with [parent_num_tokens <=
    parent_token_overlap] raises the splitter's [ValueError], and with
    valid parameters and a text without sentences it returns; in both
    cases the object is left as it was. *)
Theorem parent_ingestion_no_effect text n o (s : ingester C) :
  n <= o \/ sent_tokenize text = [] ->
  snd (_ingest_parent_docs text n o s) = s /\
  (n <= o -> fst (_ingest_parent_docs text n o s) =
             Raise (ValueError "num_tokens must be greater than token_overlap")) /\
  (o < n -> fst (_ingest_parent_docs text n o s) = Ok tt).
Proof.
  intros Hcase. rewrite ingest_parent_run.
  destruct (Z_le_gt_dec n o) as [Hbad | Hok].
  - rewrite Splitter.splitter_raises by exact Hbad. simpl.
    split; [reflexivity |]. split; [reflexivity | lia].
  - destruct Hcase as [Hbad | Hnil]; [lia |].
    unfold Splitter.sentence_aware_splitter.
    replace (n <=? o) with false by (symmetry; apply Z.leb_gt; lia).
    rewrite Hnil. simpl. split; [now destruct s |]. split; [lia | reflexivity].
Qed.



(** X14. [_debug] on an object whose parent store is empty, with valid
    parent parameters and a text without sentences, stops at the child
    ingestion with [ValueError('Parent Chunks were not created.')]; the
    object is left as it was. *)
Theorem debug_without_sentences text query model num_tokens token_overlap k
    (s : ingester C) :
  parent_doc_store s = [] -> fst token_overlap < fst num_tokens ->
  sent_tokenize text = [] ->
  _debug text query model num_tokens token_overlap k s =
    (Raise (ValueError "Parent Chunks were not created."), s).
Proof.
  intros Hs Hp Hnil.
  destruct (parent_ingestion_no_effect text (fst num_tokens) (fst token_overlap) s
              (or_intror Hnil)) as (E1 & _ & E2).
  unfold _debug, bind at 1.
  destruct (_ingest_parent_docs text (fst num_tokens) (fst token_overlap) s) as [r s'].
  simpl in E1, E2. subst s'. rewrite (E2 Hp).
  unfold bind at 1. rewrite ingest_child_run, Hs. reflexivity.
Qed.

(** X15. [_ingest_child_docs] with [child_num_tokens <=
    child_token_overlap] on a non-empty store raises the splitter's
    [ValueError] at the first parent: nothing is written, the object is
    left as it was. *)
Theorem child_ingestion_invalid_parameters n o model (s : ingester C) :
  parent_doc_store s <> [] -> n <= o ->
  _ingest_child_docs n o model s =
    (Raise (ValueError "num_tokens must be greater than token_overlap"), s).
Proof.
  intros Hs Hbad. rewrite ingest_child_run.
  destruct (parent_doc_store s); [congruence |]. simpl.
  now replace (n <=? o) with true by (symmetry; apply Z.leb_le; lia).
Qed.

(** X16. With an index that replaces on an existing id, every entry of
    the index after a child ingestion from a reachable state was there
    before or is well-formed: its id is the digest of its document, its
    embedding is that of its document, its [parent_id] is a key of the
    parent store, and its document is the chunk number [chunk_index] of
    the text stored under that key. *)
Theorem child_entries_reference_parents n o model id e (s : ingester C) :
  upsert_by_id -> reachable s ->
  collection_entries (chroma_collection (snd (_ingest_child_docs n o model s))) !! id = Some e ->
  collection_entries (chroma_collection s) !! id = Some e \/
  (id = sha256_hexdigest (encode (e_document e)) /\
   e_embedding e = ollama_embed model (e_document e) /\
   exists parent_id parent_text chunks i,
     dict_get (parent_doc_store s) parent_id = Some parent_text /\
     e_metadata e !! "parent_id"%string = Some (MStr parent_id) /\
     e_metadata e !! "chunk_index"%string = Some (MInt (Z.of_nat i)) /\
     sentence_aware_splitter parent_text n o = Ok chunks /\ chunks !! i = Some (e_document e)).
Proof.
  intros Hup Hr. rewrite ingest_child_run.
  destruct (length (parent_doc_store s) =? 0)%nat; simpl; [now left |].
  destruct (n <=? o) eqn:Ev; simpl; [now left |]. apply Z.leb_gt in Ev.
  rewrite (entries_apply_writes _ _ Hup). intros H.
  apply insert_all_lookup in H as [H | H]; [now left | right].
  apply all_child_writes_elem in H as (pid & ptext & i & child & Hp & Hi & -> & ->).
  simpl. split; [reflexivity |]. split; [reflexivity |].
  exists pid, ptext,
    (map Splitter.chunk_text (Splitter.splitter_trace sent_tokenize word_tokenize ptext n o)),
    i.
  split; [| split; [| split; [| split]]].
  - apply dict_elem_get; [now apply reachable_NoDup | exact Hp].
  - apply lookup_insert_eq.
  - rewrite lookup_insert_ne by discriminate. apply lookup_singleton_eq.
  - now apply Splitter.splitter_returns.
  - exact Hi.
Qed.


End Facts.

(** *** The theorems on the concrete object *)

Abbreviation simple_sent := SimpleTokenizers.sent_tokenize.
Abbreviation simple_word := SimpleTokenizers.word_tokenize.
Abbreviation demo_debug := (_debug simple_sent simple_word text_digest length_embed).

Definition first_child_entry : index_entry (list Z) :=
  IndexEntry [10]
    {[ "parent_id"%string := MStr demo_text; "chunk_index"%string := MInt 0 ]}
    "Cats purr.".

Lemma parent_ingestion_twice_witness :
  demo_reachable demo_parents /\
  snd (demo_ingest_parents demo_text 10 3 (snd (demo_ingest_parents demo_text 10 3 demo_parents)))
  = snd (demo_ingest_parents demo_text 10 3 demo_parents).
Proof.
  split; [exact demo_parents_reachable |].
  exact (proj1 (parent_ingestion_twice simple_sent simple_word text_digest length_embed
                  demo_text 10 3 demo_parents demo_parents_reachable)).
Defined.

Lemma parent_ingestion_lookup_witness :
  (Splitter.simple_splitter demo_text 10 3 = Ok [demo_text] /\ demo_text ∈ [demo_text]) /\
  dict_get (parent_doc_store (snd (demo_ingest_parents demo_text 10 3 demo_new)))
    (text_digest (encode demo_text)) = Some demo_text.
Proof.
  assert (H1 : Splitter.simple_splitter demo_text 10 3 = Ok [demo_text])
    by (vm_compute; reflexivity).
  assert (H2 : demo_text ∈ [demo_text]) by left.
  split; [auto |].
  apply (proj2 (parent_ingestion_lookup simple_sent simple_word text_digest
                  demo_text 10 3 [demo_text] demo_text demo_new H1 H2)).
  intros c Hc _. now apply list_elem_of_singleton in Hc.
Defined.

Lemma parent_ingestion_no_effect_witness :
  (3 <= 3 \/ simple_sent demo_text = []) /\
  snd (demo_ingest_parents demo_text 3 3 demo_parents) = demo_parents.
Proof.
  assert (H : 3 <= 3 \/ simple_sent demo_text = []) by (left; lia).
  split; [exact H |].
  exact (proj1 (parent_ingestion_no_effect simple_sent simple_word text_digest
                  demo_text 3 3 demo_parents H)).
Defined.



Lemma debug_without_sentences_witness :
  (parent_doc_store demo_new = [] /\ fst (32, 16) < fst (256, 128) /\
   simple_sent "   " = []) /\
  demo_debug "   " "query" "model" (256, 128) (32, 16) 3 demo_new =
    (Raise (ValueError "Parent Chunks were not created."), demo_new).
Proof.
  assert (H1 : parent_doc_store demo_new = []) by reflexivity.
  assert (H2 : fst (32, 16) < fst (256, 128)) by (simpl; lia).
  assert (H3 : simple_sent "   " = []) by reflexivity.
  split; [auto |].
  exact (debug_without_sentences simple_sent simple_word text_digest length_embed
           "   " "query" "model" (256, 128) (32, 16) 3 demo_new H1 H2 H3).
Defined.

Lemma child_ingestion_invalid_parameters_witness :
  (parent_doc_store demo_parents <> [] /\ 16 <= 16) /\
  demo_ingest_children 16 16 "model" demo_parents =
    (Raise (ValueError "num_tokens must be greater than token_overlap"), demo_parents).
Proof.
  assert (H1 : parent_doc_store demo_parents <> []) by (vm_compute; discriminate).
  assert (H2 : 16 <= 16) by lia.
  split; [auto |].
  exact (child_ingestion_invalid_parameters simple_sent simple_word text_digest length_embed
           16 16 "model" demo_parents H1 H2).
Defined.

Lemma child_entries_reference_parents_witness :
  (upsert_by_id (VectorIndex0 := map_index) /\ demo_reachable demo_parents /\
   collection_entries
     (chroma_collection (snd (demo_ingest_children 3 0 "model" demo_parents)))
     !! "Cats purr."%string = Some first_child_entry) /\
  "Cats purr."%string = text_digest (encode (e_document first_child_entry)) /\
  e_embedding first_child_entry = length_embed "model" (e_document first_child_entry).
Proof.
  assert (H : collection_entries
                (chroma_collection (snd (demo_ingest_children 3 0 "model" demo_parents)))
                !! "Cats purr."%string = Some first_child_entry)
    by (vm_compute; reflexivity).
  split; [exact (conj map_index_upsert (conj demo_parents_reachable H)) |].
  destruct (child_entries_reference_parents simple_sent simple_word text_digest length_embed
              3 0 "model" "Cats purr." first_child_entry demo_parents
              map_index_upsert demo_parents_reachable H) as [Hold | (A & B & _)].
  - assert (E : collection_entries (chroma_collection demo_parents) = ∅)
      by (vm_compute; reflexivity).
    rewrite E, lookup_empty in Hold. discriminate.
  - exact (conj A B).
Defined.


End IngesterFacts.

(** ** simple_doc_summarizer.MapReduceSummarizer

    The caller of [sentence_aware_splitter].  What the methods print is
    not modelled, except that evaluating a printed expression can raise:
    the divisions by [chunk_len] (line 121) and by [len(text)] (lines
    127 and 140). *)

Module Summarizer.

(** The fields of [Config]; the type of the [options] dictionary, whose
    values are floats, is a parameter. *)
Record Config (Options : Type) : Type := MkConfig {
  chat_model : string;
  emb_model : string;
  pdf_path : string;
  num_tokens : Z;
  token_overlap : Z;
  num_sentences : Z;
  options : Options
}.
Arguments MkConfig {Options} _ _ _ _ _ _ _.
Arguments chat_model {Options} _.
Arguments emb_model {Options} _.
Arguments pdf_path {Options} _.
Arguments num_tokens {Options} _.
Arguments token_overlap {Options} _.
Arguments num_sentences {Options} _.
Arguments options {Options} _.

(** What [summarize] can raise: the splitter's exception, which it does
    not catch, or the division by zero in a printed expression. *)
Inductive summarize_exn : Type :=
| SplitterError (e : exn)
| ZeroDivisionError.

Inductive outcome (A : Type) : Type :=
| Returns (a : A)
| Raises (e : summarize_exn).
Arguments Returns {A} a.
Arguments Raises {A} e.

(** A call of [ollama.generate]: the model and the prompt. *)
Definition call : Type := string * string.

(** The newline character. *)
Definition nl : string := String "010"%char EmptyString.

(** [if s:] for an optional string. *)
Definition truthy (s : option string) : bool :=
  match s with
  | Some s => negb (bool_decide (s = ""%string))
  | None => false
  end.

Section Model.
Variable sent_tokenize : string -> list string.
Variable word_tokenize : string -> list string.
Variable Options : Type.
(** [ollama.generate(model=.., prompt=.., options=..)['response']] after
    the calls made so far: the response, or [None] when the call or the
    subscript raises. *)
Variable ollama_generate : list call -> string -> string -> Options -> option string.

(** Lines 65-69. *)
Definition map_prompt (chunk : string) : string :=
  ("You are a helpful assistant. Please summarize the following text. "
   +:+ "Keep the summary concise and retain the most important details." +:+ nl +:+ nl
   +:+ "TEXT:" +:+ nl +:+ "---" +:+ nl +:+ chunk +:+ nl +:+ "---" +:+ nl +:+ "SUMMARY: ")%string.

(** Lines 81-87. *)
Definition reduce_prompt (summaries : list string) : string :=
  ("You are a helpful summarization assistant. You are given several summaries of a long document. "
   +:+ "Please combine these summaries into one final, coherent summary. "
   +:+ "Ensure all key points from the indivual summaries are included. "
   +:+ "Output the summary in proper Markdown format with bulltet key points." +:+ nl +:+ nl
   +:+ "SUMMARIES:" +:+ nl +:+ "---" +:+ nl +:+ join (nl +:+ "- ") summaries +:+ nl
   +:+ "---" +:+ nl +:+ "FINAL SUMMARY: ")%string.

(** Lines 61-74: every exception of the call is caught and the method
    then returns [None]. *)
Definition _map_function (chunk : string) (config : Config Options) (calls : list call)
  : option string * list call :=
  (ollama_generate calls (chat_model config) (map_prompt chunk) (options config),
   calls ++ [(chat_model config, map_prompt chunk)]).

(** Lines 76-92. *)
Definition _reduce_function (summaries : list string) (config : Config Options)
    (calls : list call) : option string * list call :=
  (ollama_generate calls (chat_model config) (reduce_prompt summaries) (options config),
   calls ++ [(chat_model config, reduce_prompt summaries)]).

(** Lines 105-123: the loop over the chunks; [None] when the print of
    line 117 divides by a [chunk_len] of zero. *)
Fixpoint map_loop (chunks : list string) (config : Config Options)
    (chunk_summaries : list string) (calls : list call)
  : option (list string) * list call :=
  match chunks with
  | [] => (Some chunk_summaries, calls)
  | chunk :: rest =>
      let '(summary, calls) := _map_function chunk config calls in
      let chunk_summaries :=
        match summary with
        | Some s => if truthy summary then chunk_summaries ++ [s] else chunk_summaries
        | None => chunk_summaries
        end in
      if (String.length chunk =? 0)%nat then (None, calls)
      else map_loop rest config chunk_summaries calls
  end.

(** Lines 94-143. *)
Definition summarize (text : string) (config : Config Options) (calls : list call)
  : outcome (option string) * list call :=
  match Splitter.sentence_aware_splitter sent_tokenize word_tokenize text
          (num_tokens config) (token_overlap config) with
  | Raise e => (Raises (SplitterError e), calls)
  | Ok chunks =>
      match map_loop chunks config [] calls with
      | (None, calls) => (Raises ZeroDivisionError, calls)
      | (Some chunk_summaries, calls) =>
          if (String.length text =? 0)%nat then (Raises ZeroDivisionError, calls)
          else if bool_decide (chunk_summaries = []) then
            (Returns (Some "Failed to generate only chunk summaries."%string), calls)
          else
            let '(final_summary, calls) := _reduce_function chunk_summaries config calls in
            if truthy final_summary then (Returns final_summary, calls)
            else (Returns None, calls)
      end
  end.

(** The [generate] calls of the map step for [chunks], in order. *)
Definition map_calls (config : Config Options) (chunks : list string) : list call :=
  map (fun chunk => (chat_model config, map_prompt chunk)) chunks.

Abbreviation sentence_aware_splitter :=
  (Splitter.sentence_aware_splitter sent_tokenize word_tokenize).

Lemma length_zero_empty (t : string) : (String.length t =? 0)%nat = bool_decide (t = ""%string).
Proof. destruct t; reflexivity. Qed.

Lemma join_empty (l : list string) : join " " l = ""%string -> l = [] \/ l = [""%string].
Proof.
  destruct l as [| a [| b l]]; simpl; intros H; [now left | right; now rewrite H |].
  destruct a; discriminate.
Qed.

(** Sentences that are not empty give chunks that are not empty. *)
Lemma chunks_not_empty text n o chunks :
  (forall t, t ∈ sent_tokenize text -> t <> ""%string) ->
  sentence_aware_splitter text n o = Ok chunks -> Forall (fun chunk => chunk <> ""%string) chunks.
Proof.
  intros Hsent Hrun.
  destruct (Z_le_gt_dec n o) as [Hbad | Hok].
  { rewrite Splitter.splitter_raises in Hrun by exact Hbad. discriminate. }
  rewrite Splitter.splitter_returns in Hrun by lia. injection Hrun as <-.
  apply Forall_forall. intros chunk Hin.
  apply list_elem_of_In, in_map_iff in Hin as (c & <- & Hc). apply list_elem_of_In in Hc.
  destruct (SplitterFacts.trace_chunk_bounds _ _ _ _ _ _ Hc) as (Hlt & Hle & Hne).
  assert (Hall : forall t, t ∈ Splitter.c_sentences c -> t <> ""%string).
  { intros t Ht. apply Hsent.
    destruct (Splitter.run_built _ _ _ _ _ _
                (Splitter.splitter_trace_run sent_tokenize word_tokenize text n o) Hc)
      as (Hb & Hs & _).
    destruct (Splitter.build_chunk_ok _ n _ Hs) as (_ & _ & H3 & _). rewrite <- Hb in H3.
    rewrite H3 in Ht. apply list_elem_of_lookup in Ht as (j & Hj).
    rewrite list_lookup_fmap in Hj.
    destruct (Splitter.span _ _ _ !! j) as [x |] eqn:Ex; [| discriminate].
    injection Hj as <-.
    assert (Hjlt : (j < Splitter.c_stop c - Splitter.c_start c)%nat).
    { apply lookup_lt_Some in Ex. unfold Splitter.span in Ex.
      rewrite length_take in Ex. lia. }
    rewrite Splitter.span_lookup in Ex by exact Hjlt.
    rewrite <- (SplitterFacts.data_sentences sent_tokenize word_tokenize).
    apply list_elem_of_In, in_map, list_elem_of_In, list_elem_of_lookup. eauto. }
  unfold Splitter.chunk_text. intros Hnil. apply join_empty in Hnil as [Hnil | Hnil].
  - contradiction.
  - apply (Hall ""%string); [| reflexivity]. rewrite Hnil. left.
Qed.

(** The map loop over non-empty chunks: one call per chunk, in order;
    the summaries kept are the non-empty responses. *)
Lemma map_loop_spec chunks config sums calls :
  Forall (fun chunk => chunk <> ""%string) chunks ->
  exists new,
    map_loop chunks config sums calls =
      (Some (sums ++ new), calls ++ map_calls config chunks) /\
    (length new <= length chunks)%nat /\
    Forall (fun summary =>
              summary <> ""%string /\
              exists calls' chunk, chunk ∈ chunks /\
                ollama_generate calls' (chat_model config) (map_prompt chunk)
                  (options config) = Some summary) new.
Proof.
  intros Hne. revert sums calls.
  induction Hne as [| chunk chunks Hc Hne IH]; intros sums calls.
  - exists []. simpl. rewrite !app_nil_r. repeat split; [lia | constructor].
  - simpl. rewrite length_zero_empty, bool_decide_eq_false_2 by exact Hc.
    destruct (ollama_generate calls (chat_model config) (map_prompt chunk) (options config))
      as [r |] eqn:Er; simpl.
    + case_bool_decide as Eempty; simpl.
      * destruct (IH sums (calls ++ [(chat_model config, map_prompt chunk)]))
          as (new & E & Hl & Hall).
        exists new. rewrite E, <- app_assoc. simpl. split; [reflexivity |].
        split; [lia |]. eapply Forall_impl; [exact Hall |]. simpl.
        intros t (Ht & calls' & ch & Hin & Hg). split; [exact Ht |].
        exists calls', ch. split; [now right | exact Hg].
      * destruct (IH (sums ++ [r]) (calls ++ [(chat_model config, map_prompt chunk)]))
          as (new & E & Hl & Hall).
        exists (r :: new). rewrite E, <- !app_assoc. simpl. split; [reflexivity |].
        split; [lia |]. constructor.
        -- split; [exact Eempty |]. exists calls, chunk. split; [left | exact Er].
        -- eapply Forall_impl; [exact Hall |]. simpl.
           intros t (Ht & calls' & ch & Hin & Hg). split; [exact Ht |].
           exists calls', ch. split; [now right | exact Hg].
    + destruct (IH sums (calls ++ [(chat_model config, map_prompt chunk)]))
        as (new & E & Hl & Hall).
      exists new. rewrite E, <- app_assoc. simpl. split; [reflexivity |].
      split; [lia |]. eapply Forall_impl; [exact Hall |]. simpl.
      intros t (Ht & calls' & ch & Hin & Hg). split; [exact Ht |].
      exists calls', ch. split; [now right | exact Hg].
Qed.

(** X18. With [config.num_tokens <= config.token_overlap], [summarize]
    raises the splitter's [ValueError] before any call of the model. *)
Theorem summarize_invalid_config text config calls :
  num_tokens config <= token_overlap config ->
  summarize text config calls =
    (Raises (SplitterError (ValueError "num_tokens must be greater than token_overlap")),
     calls).
Proof.
  intros Hbad. unfold summarize. now rewrite Splitter.splitter_raises by exact Hbad.
Qed.

(** X19. On the empty text with a valid configuration [summarize] raises
    [ZeroDivisionError]: it returns neither a summary nor its failure
    message. *)
Theorem summarize_empty_text config calls :
  token_overlap config < num_tokens config ->
  fst (summarize ""%string config calls) = Raises ZeroDivisionError.
Proof.
  intros Hv. unfold summarize. rewrite Splitter.splitter_returns by exact Hv.
  destruct (map_loop _ config [] calls) as [[sums |] calls']; reflexivity.
Qed.

(** X20. With a valid configuration, a non-empty text and non-empty
    sentences, when every call of the model fails or answers with the
    empty string, [summarize] returns ['Failed to generate only chunk
    summaries.'] after exactly one call per chunk, in chunk order; the
    reduce step is not called. *)
Theorem summarize_all_maps_fail text config calls chunks :
  token_overlap config < num_tokens config -> text <> ""%string ->
  (forall t, t ∈ sent_tokenize text -> t <> ""%string) ->
  (forall calls' prompt,
      truthy (ollama_generate calls' (chat_model config) prompt (options config)) = false) ->
  sentence_aware_splitter text (num_tokens config) (token_overlap config) = Ok chunks ->
  summarize text config calls =
    (Returns (Some "Failed to generate only chunk summaries."%string),
     calls ++ map_calls config chunks).
Proof.
  intros Hv Htext Hsent Hfail Hrun. unfold summarize. rewrite Hrun.
  destruct (map_loop_spec chunks config [] calls (chunks_not_empty _ _ _ _ Hsent Hrun))
    as (new & -> & _ & Hall).
  rewrite length_zero_empty, bool_decide_eq_false_2 by exact Htext.
  destruct new as [| r new]; [reflexivity | exfalso].
  apply Forall_cons in Hall as [(Hr & calls' & ch & _ & Hg) _].
  specialize (Hfail calls' (map_prompt ch)). rewrite Hg in Hfail. simpl in Hfail.
  now rewrite bool_decide_eq_false_2 in Hfail by exact Hr.
Qed.


End Model.

(** *** The theorems on a concrete configuration

    The values of [Config.__init__] without the options, a model that
    always fails and a model that always gives the same answer. *)

Definition demo_config : Config unit :=
  MkConfig "gemma3:4b" "snowflake-arctic-embed:33m" "xyz.pdf" 1024 128 5 tt.

Definition bad_config : Config unit :=
  MkConfig "gemma3:4b" "snowflake-arctic-embed:33m" "xyz.pdf" 128 128 5 tt.

Definition failing_model (calls : list call) (model prompt : string) (opts : unit)
  : option string := None.

Definition constant_model (calls : list call) (model prompt : string) (opts : unit)
  : option string := Some "A summary."%string.

Abbreviation simple_sent := SimpleTokenizers.sent_tokenize.
Abbreviation simple_word := SimpleTokenizers.word_tokenize.

Lemma demo_sentences_not_empty :
  forall t, t ∈ simple_sent Ingester.demo_text -> t <> ""%string.
Proof.
  apply Forall_forall.
  replace (simple_sent Ingester.demo_text)
    with ["Cats purr."%string; "Dogs bark."%string; "Birds sing."%string]
    by (vm_compute; reflexivity).
  repeat constructor; discriminate.
Qed.

Lemma demo_text_one_chunk :
  Splitter.simple_splitter Ingester.demo_text 1024 128 = Ok [Ingester.demo_text].
Proof. vm_compute. reflexivity. Qed.

Lemma summarize_invalid_config_witness :
  num_tokens bad_config <= token_overlap bad_config /\
  summarize simple_sent simple_word unit failing_model Ingester.demo_text bad_config [] =
    (Raises (SplitterError (ValueError "num_tokens must be greater than token_overlap")), []).
Proof.
  assert (H : num_tokens bad_config <= token_overlap bad_config) by (simpl; lia).
  split; [exact H |].
  exact (summarize_invalid_config simple_sent simple_word unit failing_model
           Ingester.demo_text bad_config [] H).
Defined.

Lemma summarize_empty_text_witness :
  token_overlap demo_config < num_tokens demo_config /\
  fst (summarize simple_sent simple_word unit constant_model "" demo_config []) =
    Raises ZeroDivisionError.
Proof.
  assert (H : token_overlap demo_config < num_tokens demo_config) by (simpl; lia).
  split; [exact H |].
  exact (summarize_empty_text simple_sent simple_word unit constant_model demo_config [] H).
Defined.

Lemma summarize_all_maps_fail_witness :
  (token_overlap demo_config < num_tokens demo_config /\
   Ingester.demo_text <> ""%string /\
   (forall calls' prompt,
       truthy (failing_model calls' (chat_model demo_config) prompt (options demo_config))
       = false)) /\
  fst (summarize simple_sent simple_word unit failing_model Ingester.demo_text demo_config [])
  = Returns (Some "Failed to generate only chunk summaries."%string).
Proof.
  assert (H1 : token_overlap demo_config < num_tokens demo_config) by (simpl; lia).
  assert (H2 : Ingester.demo_text <> ""%string) by discriminate.
  assert (H3 : forall calls' prompt,
             truthy (failing_model calls' (chat_model demo_config) prompt (options demo_config))
             = false) by reflexivity.
  split; [auto |].
  rewrite (summarize_all_maps_fail simple_sent simple_word unit failing_model
             Ingester.demo_text demo_config [] [Ingester.demo_text]
             H1 H2 demo_sentences_not_empty H3 demo_text_one_chunk).
  reflexivity.
Defined.


(** The run of the constant model on the concrete text: one map call
    and the reduce call. *)
Example summarize_constant_model :
  fst (summarize simple_sent simple_word unit constant_model Ingester.demo_text demo_config [])
  = Returns (Some "A summary."%string) /\
  length (snd (summarize simple_sent simple_word unit constant_model
                 Ingester.demo_text demo_config [])) = 2%nat.
Proof. split; vm_compute; reflexivity. Qed.

End Summarizer.
